(** * my_std::any — a shallow embedding of Project-4's [any.hpp]

    The class [my_std::any] owns, through a [std::unique_ptr<placeholder>],
    at most one heap-allocated [holder<ValueType>].  The embedding keeps the
    two levels of indirection of the source: the [any] objects live in a store
    indexed by their address (so that [a.swap(a)] and [a = std::move(a)] can be
    written down), and the holders live in a heap indexed by the address that
    [std::make_unique] returned.  Member functions are state transformers in a
    small monad whose outcomes are normal return, a C++ exception in flight,
    or undefined behaviour. *)

From Stdlib Require Import QArith.
From stdpp Require Import gmap strings.

(** ** The types a client may store *)

(** [tid] ranges over the decayed object types ([int], [std::string],
    [std::vector<int>], user classes, ...): the types for which
    [holder<ValueType>] can be instantiated.  [void] is not one of them.
    The special member functions of a stored type are client code; what the
    container sees of them is whether a copy or move construction exits by an
    exception, and the state a move leaves in its source. *)
Class CppTypes := {
  tid : Type;
  tid_eq_dec :: EqDecision tid;
  value : tid → Type;
  user_exn : Type;
  copy_throws : ∀ t, value t → option user_exn;
  move_throws : ∀ t, value t → option user_exn;
  moved_from : ∀ t, value t → value t;
}.

(** A small universe for running the model: the types that Project-4's
    [main.cpp] stores ([int], [double], [std::string], [std::vector<int>],
    [Point]) and a class [Fragile] whose copy constructor throws when its
    flag is set.  A [double] is represented by a rational. *)
Module Demo.

Inductive ty := Int | Double | String | VectorInt | Point | Fragile.

#[global] Instance ty_eq_dec : EqDecision ty.
Proof. solve_decision. Defined.

Definition val (t : ty) : Type :=
  match t with
  | Int => Z
  | Double => Q
  | String => string
  | VectorInt => list Z
  | Point => (Z * Z)%type
  | Fragile => bool
  end.

Definition copy_raises (t : ty) : val t → option string :=
  match t with
  | Fragile => λ armed : bool, if armed then Some "copy failed"%string else None
  | _ => λ _, None
  end.

Definition residue (t : ty) : val t → val t :=
  match t with
  | String => λ _, EmptyString
  | VectorInt => λ _, []
  | _ => λ v, v
  end.

Definition types : CppTypes := {|
  tid := ty;
  value := val;
  user_exn := string;
  copy_throws := copy_raises;
  move_throws := λ _ _, None;
  moved_from := residue;
|}.

End Demo.

(** Addresses of [any] objects, and addresses of heap-allocated holders. *)
Abbreviation addr := positive (only parsing).
Abbreviation loc := positive (only parsing).

Section any_hpp.
Context `{CppTypes}.


(** Static types as they appear as template arguments: an object type with
    top-level cv-qualifiers and possibly a reference. *)
Inductive ref_kind := NoRef | LRef | RRef.

Record cpp_type := QT {
  ty_base : tid;
  ty_const : bool;
  ty_volatile : bool;
  ty_ref : ref_kind;
}.

Definition plain (t : tid) : cpp_type := QT t false false NoRef.

Definition is_reference_v (T : cpp_type) : bool :=
  match ty_ref T with NoRef => false | _ => true end.

Definition remove_reference_t (T : cpp_type) : cpp_type :=
  QT (ty_base T) (ty_const T) (ty_volatile T) NoRef.

(** [std::remove_cv_t] only strips top-level qualifiers, so it leaves a
    reference type alone. *)
Definition remove_cv_t (T : cpp_type) : cpp_type :=
  match ty_ref T with
  | NoRef => QT (ty_base T) false false NoRef
  | r => QT (ty_base T) (ty_const T) (ty_volatile T) r
  end.

(** [std::decay_t] on the types of this universe (no arrays, no functions). *)
Definition decay_t (T : cpp_type) : cpp_type :=
  remove_cv_t (remove_reference_t T).

(** [std::type_info]: [typeid] ignores references and top-level cv. *)
Inductive type_info := typeid_void | typeid_of (t : tid).

Definition typeid (T : cpp_type) : type_info := typeid_of (ty_base T).

#[global] Instance type_info_eq_dec : EqDecision type_info.
Proof. solve_decision. Defined.

(** ** Exceptions *)
Inductive exn := bad_any_cast | thrown (e : user_exn).

Definition what (e : exn) : option string :=
  match e with bad_any_cast => Some "bad any_cast"%string | thrown _ => None end.

(** ** Memory *)


(** [struct holder : placeholder]: the dynamic type of a heap cell is one
    instance [holder<ValueType>] together with its [value] member. *)
Inductive placeholder := holder (ValueType : tid) (val : value ValueType).

(** [class any]: its only data member. *)
Record any := Any { content : option loc }.

Record state := State {
  objs : gmap positive any;
  heap : gmap positive placeholder;
}.

Inductive outcome (A : Type) :=
  | Ret (a : A) (s : state)
  | Throw (e : exn) (s : state)
  | Undef.
Arguments Ret {A} a s.
Arguments Throw {A} e s.
Arguments Undef {A}.

Definition M (A : Type) : Type := state → outcome A.

Definition ret {A} (a : A) : M A := λ s, Ret a s.
Definition bind {A B} (m : M A) (k : A → M B) : M B :=
  λ s, match m s with
       | Ret a s' => k a s'
       | Throw e s' => Throw e s'
       | Undef => Undef
       end.
Definition throw {A} (e : exn) : M A := λ s, Throw e s.
Definition undef {A} : M A := λ _, Undef.

#[global] Instance M_ret : MRet M := @ret.
#[global] Instance M_bind : MBind M := λ A B k m, bind m k.

(** Access to an [any] object through a reference or [this]. *)
Definition read_any (a : addr) : M any :=
  λ s, match objs s !! a with Some x => Ret x s | None => Undef end.

Definition write_any (a : addr) (x : any) : M unit :=
  λ s, match objs s !! a with
       | Some _ => Ret () (State (<[a := x]> (objs s)) (heap s))
       | None => Undef
       end.

(** The lifetime of the object at [a] begins / ends. *)
Definition begin_lifetime (a : addr) (x : any) : M unit :=
  λ s, Ret () (State (<[a := x]> (objs s)) (heap s)).

Definition end_lifetime (a : addr) : M unit :=
  λ s, Ret () (State (delete a (objs s)) (heap s)).

Definition fresh_addr : M addr := λ s, Ret (fresh (dom (objs s))) s.

(** Access to a holder through the [placeholder*] held by a [unique_ptr]. *)
Definition deref (l : loc) : M placeholder :=
  λ s, match heap s !! l with Some h => Ret h s | None => Undef end.

(** [new holder<ValueType>(...)], once the member [value] is constructed. *)
Definition new_holder (h : placeholder) : M loc :=
  λ s, let l := fresh (dom (heap s)) in
       Ret l (State (objs s) (<[l := h]> (heap s))).

(** What [~unique_ptr] and [unique_ptr::reset] do with the old pointer. *)
Definition delete_holder (c : option loc) : M unit :=
  match c with
  | None => ret ()
  | Some l => λ s, match heap s !! l with
                   | Some _ => Ret () (State (objs s) (delete l (heap s)))
                   | None => Undef
                   end
  end.

(** Reading / writing the [value] member of a [holder<T>] through a [T*]. *)
Definition as_value (T : tid) (h : placeholder) : option (value T) :=
  match h with
  | holder t v =>
      match decide (t = T) with
      | left e => Some (eq_rect t value v T e)
      | right _ => None
      end
  end.

Definition load (T : tid) (p : loc) (s : state) : option (value T) :=
  heap s !! p ≫= as_value T.

Definition load_value (T : tid) (p : loc) : M (value T) :=
  λ s, match load T p s with Some v => Ret v s | None => Undef end.

Definition store_value (T : tid) (p : loc) (v : value T) : M unit :=
  λ s, match load T p s with
       | Some _ => Ret () (State (objs s) (<[p := holder T v]> (heap s)))
       | None => Undef
       end.

(** Construction of a [T] from an lvalue (copy) or from an xvalue (move). *)
Definition copy_construct (T : tid) (v : value T) : M (value T) :=
  match copy_throws T v with
  | Some e => throw (thrown e)
  | None => ret v
  end.

Definition move_construct (T : tid) (v : value T) : M (value T * value T) :=
  match move_throws T v with
  | Some e => throw (thrown e)
  | None => ret (v, moved_from T v)
  end.

(** ** [struct holder] *)

(** [holder::type]. *)
Definition holder_type (h : placeholder) : type_info :=
  match h with holder t _ => typeid_of t end.

(** [holder::clone]: [std::make_unique<holder<ValueType>>(value)]. *)
Definition clone (h : placeholder) : M loc :=
  match h with
  | holder t v => v' ← copy_construct t v; new_holder (holder t v')
  end.

(** [holder::holder(T&& val) : value(std::forward<T>(val))], as instantiated
    by the converting constructor with [T = ValueType]: an lvalue reference,
    or a const rvalue, selects the copy constructor of the stored type; any
    other rvalue selects its move constructor. *)
Definition forwards_as_lvalue (ValueType : cpp_type) : bool :=
  match ty_ref ValueType with
  | LRef => true
  | _ => ty_const ValueType
  end.

Definition make_holder (ValueType : cpp_type) (v : value (ty_base ValueType))
  : M loc :=
  if forwards_as_lvalue ValueType
  then v' ← copy_construct _ v;
       new_holder (holder (ty_base (decay_t ValueType)) v')
  else r ← move_construct _ v;
       new_holder (holder (ty_base (decay_t ValueType)) r.1).

(** ** [class any] *)

(** [constexpr any() noexcept = default]. *)
Definition any_default (this : addr) : M unit :=
  begin_lifetime this (Any None).

(** [any(const any& other)]. *)
Definition any_copy (this other : addr) : M unit :=
  o ← read_any other;
  match content o with
  | Some l => h ← deref l; l' ← clone h; begin_lifetime this (Any (Some l'))
  | None => begin_lifetime this (Any None)
  end.

(** [any(any&& other) noexcept = default]: the [unique_ptr] move
    constructor releases the source. *)
Definition any_move (this other : addr) : M unit :=
  o ← read_any other;
  write_any other (Any None);;
  begin_lifetime this (Any (content o)).

(** [template<typename ValueType> any(ValueType&& value)]. *)
Definition any_value (this : addr) (ValueType : cpp_type)
    (v : value (ty_base ValueType)) : M unit :=
  l ← make_holder ValueType v;
  begin_lifetime this (Any (Some l)).

(** [~any() = default]. *)
Definition any_dtor (this : addr) : M unit :=
  o ← read_any this;
  delete_holder (content o);;
  end_lifetime this.

(** [void swap(any& other) noexcept]. *)
Definition swap (this other : addr) : M unit :=
  x ← read_any this;
  y ← read_any other;
  write_any this y;;
  write_any other x.

(** [any& operator=(const any& rhs)]. *)
Definition assign_copy (this rhs : addr) : M unit :=
  tmp ← fresh_addr;
  any_copy tmp rhs;;
  swap tmp this;;
  any_dtor tmp.

(** [any& operator=(any&& rhs) noexcept]. *)
Definition assign_move (this rhs : addr) : M unit :=
  tmp ← fresh_addr;
  any_move tmp rhs;;
  swap tmp this;;
  any_dtor tmp.

(** [template<typename ValueType> any& operator=(ValueType&& rhs)]. *)
Definition assign_value (this : addr) (ValueType : cpp_type)
    (v : value (ty_base ValueType)) : M unit :=
  tmp ← fresh_addr;
  any_value tmp ValueType v;;
  swap tmp this;;
  any_dtor tmp.

(** [void reset() noexcept]. *)
Definition reset (this : addr) : M unit :=
  o ← read_any this;
  write_any this (Any None);;
  delete_holder (content o).

(** [bool has_value() const noexcept]. *)
Definition has_value (this : addr) : M bool :=
  o ← read_any this;
  mret (bool_decide (content o ≠ None)).

(** [const std::type_info& type() const noexcept]. *)
Definition type (this : addr) : M type_info :=
  o ← read_any this;
  match content o with
  | None => mret typeid_void
  | Some l => h ← deref l; mret (holder_type h)
  end.

(** ** [any_cast] *)

(** The two pointer forms of [any_cast<T>], on a pointer to const [any] and
    on a pointer to [any], have the same body; [operand] may be null. *)
Definition any_cast_ptr (T : cpp_type) (operand : option addr)
  : M (option loc) :=
  match operand with
  | None => mret None
  | Some a =>
      ti ← type a;
      if decide (ti ≠ typeid T) then mret None
      else o ← read_any a;
           match content o with
           | Some l => mret (Some l)
           | None => undef
           end
  end.

(** What a value form hands back: a reference into the holder when [T] is a
    reference type, a freshly constructed [T] otherwise. *)
Inductive cast_result (T : cpp_type) :=
  | by_ref (p : loc)
  | by_value (v : value (ty_base T)).
Arguments by_ref {T} p.
Arguments by_value {T} v.

Inductive value_form := from_const_lvalue | from_lvalue | from_rvalue.

(** [T any_cast(const any&)], [T any_cast(any&)], [T any_cast(any&&)]. *)
Definition any_cast (form : value_form) (T : cpp_type) (operand : addr)
  : M (cast_result T) :=
  let value_type := remove_cv_t (remove_reference_t T) in
  result ← any_cast_ptr value_type (Some operand);
  match result with
  | None => throw bad_any_cast
  | Some p =>
      if is_reference_v T then mret (by_ref p)
      else
        v ← load_value (ty_base T) p;
        match form with
        | from_const_lvalue | from_lvalue =>
            v' ← copy_construct (ty_base T) v; mret (by_value v')
        | from_rvalue =>
            r ← move_construct (ty_base T) v;
            store_value (ty_base T) p r.2;;
            mret (by_value r.1)
        end
  end.

(** [inline void swap(any& lhs, any& rhs) noexcept]. *)
Definition swap_nonmember (lhs rhs : addr) : M unit := swap lhs rhs.

(** ** Representation invariant *)

Definition owns (s : state) (a : addr) (l : loc) : Prop :=
  objs s !! a = Some (Any (Some l)).

Record rep_inv (s : state) : Prop := {
  holder_live : ∀ a l, owns s a l → is_Some (heap s !! l);
  holder_unique : ∀ a1 a2 l, owns s a1 l → owns s a2 l → a1 = a2;
}.

(** Whether the construction of the stored value from the argument of the
    converting constructor exits by an exception. *)
Definition storing_throws (ValueType : cpp_type)
    (v : value (ty_base ValueType)) : option user_exn :=
  if forwards_as_lvalue ValueType
  then copy_throws (ty_base ValueType) v
  else move_throws (ty_base ValueType) v.

(** The second half of every assignment operator, once the temporary holds
    [x] and [*this] held [y]: after the swap the destructor of the temporary
    takes the old holder of [*this] with it. *)
Definition release_old (y : any) (objs' : gmap positive any)
    (hp : gmap positive placeholder) : outcome () :=
  match content y with
  | Some ly =>
      match hp !! ly with
      | Some _ => Ret () (State objs' (delete ly hp))
      | None => Undef
      end
  | None => Ret () (State objs' hp)
  end.

(** A holder never changes its dynamic type while it is allocated. *)
Definition tags_kept (s s' : state) : Prop :=
  ∀ l h h', heap s !! l = Some h → heap s' !! l = Some h' →
            holder_type h' = holder_type h.

(** An outcome that is defined and whose final state is a good one. *)
Definition step_ok (s : state) (r : outcome ()) : Prop :=
  ∃ s', (r = Ret () s' ∨ ∃ e, r = Throw e s') ∧ rep_inv s' ∧ tags_kept s s'.

(** [noexcept]: no state makes the call exit by an exception. *)
Definition nothrow {A} (m : M A) : Prop := ∀ s e s', m s ≠ Throw e s'.

(** ** The public interface as a whole *)

Inductive operation :=
  | op_default (this : addr)
  | op_copy (this other : addr)
  | op_move (this other : addr)
  | op_value (this : addr) (ValueType : cpp_type) (v : value (ty_base ValueType))
  | op_dtor (this : addr)
  | op_assign_copy (this rhs : addr)
  | op_assign_move (this rhs : addr)
  | op_assign_value (this : addr) (ValueType : cpp_type)
      (v : value (ty_base ValueType))
  | op_reset (this : addr)
  | op_swap (this other : addr)
  | op_has_value (this : addr)
  | op_type (this : addr)
  | op_any_cast_ptr (T : cpp_type) (operand : option addr)
  | op_any_cast (form : value_form) (T : cpp_type) (operand : addr)
  | op_swap_nonmember (lhs rhs : addr).

Definition exec (o : operation) : M () :=
  match o with
  | op_default this => any_default this
  | op_copy this other => any_copy this other
  | op_move this other => any_move this other
  | op_value this ValueType v => any_value this ValueType v
  | op_dtor this => any_dtor this
  | op_assign_copy this rhs => assign_copy this rhs
  | op_assign_move this rhs => assign_move this rhs
  | op_assign_value this ValueType v => assign_value this ValueType v
  | op_reset this => reset this
  | op_swap this other => swap this other
  | op_has_value this => has_value this;; mret ()
  | op_type this => type this;; mret ()
  | op_any_cast_ptr T operand => any_cast_ptr T operand;; mret ()
  | op_any_cast form T operand => any_cast form T operand;; mret ()
  | op_swap_nonmember lhs rhs => swap_nonmember lhs rhs
  end.

(** The [any] objects an operation is called on or receives by reference;
    for a constructor, [this] is storage and not yet an object. *)
Definition operands (o : operation) : list addr :=
  match o with
  | op_default _ | op_value _ _ _ => []
  | op_copy _ other | op_move _ other => [other]
  | op_dtor this | op_reset this | op_has_value this | op_type this
  | op_assign_value this _ _ => [this]
  | op_assign_copy this rhs | op_assign_move this rhs => [this; rhs]
  | op_swap this other => [this; other]
  | op_any_cast_ptr _ operand => option_list operand
  | op_any_cast _ _ operand => [operand]
  | op_swap_nonmember lhs rhs => [lhs; rhs]
  end.

Definition live_operands (o : operation) (s : state) : Prop :=
  Forall (λ a, is_Some (objs s !! a)) (operands o).

(** The type a successful operation has just stored in [this], if any. *)
Definition stores (o : operation) : option (addr * cpp_type) :=
  match o with
  | op_value this ValueType _ | op_assign_value this ValueType _ =>
      Some (this, ValueType)
  | _ => None
  end.

End any_hpp.

Arguments Ret {_ _} a s.
Arguments Throw {_ _} e s.
Arguments Undef {_ _}.
Arguments by_ref {_ _} p.
Arguments by_value {_ _} v.

(** ** Ownership of the heap *)

Section ownership.
Context `{CppTypes}.

(** Every allocated holder is reachable from a live [any]. *)
Definition no_leak (s : state) : Prop :=
  ∀ l, is_Some (heap s !! l) → ∃ a, owns s a l.

(** The storage in which a constructor starts the lifetime of an object. *)
Definition constructs (o : operation) : option positive :=
  match o with
  | op_default this | op_copy this _ | op_move this _ | op_value this _ _ =>
      Some this
  | _ => None
  end.

Definition fresh_storage (o : operation) (s : state) : Prop :=
  ∀ this, constructs o = Some this → objs s !! this = None.

End ownership.

(** ** [advanced_example.cpp]: clients of [any] *)

Section advanced_example.
Context `{CppTypes}.

(** [class ConfigManager]: a [std::map<std::string, my_std::any>].  The map
    is node based, so an entry keeps the address of its [any] for as long
    as the key is present; [config] records that address per key. *)
Record ConfigManager := { config : gmap string positive }.

(** What [get] can end with beside the outcomes of [any_cast]. *)
Inductive get_outcome (A : Type) :=
  | completed (r : outcome A)
  | runtime_error (what_arg : string) (s : state).

(** What [get_or_default] returns: the stored value, or [default_value]. *)
Inductive config_value (T : cpp_type) :=
  | from_config (r : cast_result T)
  | from_default (v : value (ty_base T)).

(** [config[key]]: [std::map::operator[]] inserts a value-initialised
    [any] when the key is absent. *)
Definition subscript (key : string) (c : ConfigManager) (s : state)
  : ConfigManager * positive * state :=
  match config c !! key with
  | Some a => (c, a, s)
  | None =>
      let a := fresh (dom (objs s)) in
      match any_default a s with
      | Ret _ s' => ({| config := <[key := a]> (config c) |}, a, s')
      | _ => (c, a, s)
      end
  end.

(** [template<typename T> void set(const std::string& key, T&& value)]:
    [config[key] = std::forward<T>(value)].  The manager is returned
    beside the outcome, since [operator[]] has run when the assignment
    throws. *)
Definition ConfigManager_set (T : cpp_type) (key : string)
    (v : value (ty_base T)) (c : ConfigManager) (s : state)
  : ConfigManager * outcome () :=
  let '(c', a, s') := subscript key c s in
  (c', assign_value a T v s').

(** [template<typename T> T get(const std::string& key)]. *)
Definition ConfigManager_get (T : cpp_type) (key : string)
    (c : ConfigManager) (s : state) : get_outcome (cast_result T) :=
  match config c !! key with
  | None => runtime_error _ ("Key not found: " +:+ key) s
  | Some a => completed _ (any_cast from_lvalue T a s)
  end.

(** [template<typename T> T get_or_default(const std::string& key,
    const T& default_value)]. *)
Definition return_default (T : cpp_type) (default_value : value (ty_base T))
  : M (config_value T) :=
  if is_reference_v T then mret (from_default T default_value)
  else v ← copy_construct (ty_base T) default_value;
       mret (from_default T v).

Definition ConfigManager_get_or_default (T : cpp_type) (key : string)
    (default_value : value (ty_base T)) (c : ConfigManager)
  : M (config_value T) :=
  match config c !! key with
  | None => return_default T default_value
  | Some a =>
      ti ← type a;
      if decide (ti ≠ typeid T) then return_default T default_value
      else r ← any_cast from_lvalue T a; mret (from_config T r)
  end.

(** The entries of the manager are distinct live objects. *)
Definition cfg_inv (c : ConfigManager) (s : state) : Prop :=
  (∀ k a, config c !! k = Some a → is_Some (objs s !! a))
  ∧ (∀ k1 k2 a, config c !! k1 = Some a → config c !! k2 = Some a → k1 = k2).

(** [class PolymorphicContainer]: a [std::vector<my_std::any>].  [items]
    lists the addresses of the elements in order.  Whether [push_back] has
    to grow the buffer depends on the capacity, which the class does not
    control, so it is a parameter of [add]. *)
Record PolymorphicContainer := { items : list positive }.

Definition fresh_addrs (n : nat) : M (list positive) :=
  λ s, Ret (fresh_list n (dom (objs s))) s.

(** What [std::vector] does with the elements when it grows: [any] has a
    [noexcept] move constructor, so each element is move-constructed into
    the new buffer and the old element destroyed. *)
Fixpoint relocate (old new : list positive) : M () :=
  match old, new with
  | a :: old', b :: new' => any_move b a;; any_dtor a;; relocate old' new'
  | _, _ => mret ()
  end.

(** [items.push_back(item)]: the new element is copy-constructed first, so
    nothing has happened to the vector when that throws. *)
Definition push_back (reallocates : bool) (item : addr)
    (c : PolymorphicContainer) : M PolymorphicContainer :=
  slot ← fresh_addr;
  any_copy slot item;;
  if reallocates then
    buffer ← fresh_addrs (length (items c));
    relocate (items c) buffer;;
    mret {| items := buffer ++ [slot] |}
  else mret {| items := items c ++ [slot] |}.

(** [void add(const my_std::any& item)]. *)
Definition PolymorphicContainer_add (reallocates : bool) (item : addr)
    (c : PolymorphicContainer) : M PolymorphicContainer :=
  push_back reallocates item c.

(** [size_t size() const]. *)
Definition PolymorphicContainer_size (c : PolymorphicContainer) : nat :=
  length (items c).

(** [template<typename T> T* get(size_t index)]. *)
Definition PolymorphicContainer_get (T : cpp_type) (index : nat)
    (c : PolymorphicContainer) : M (option positive) :=
  if decide (length (items c) ≤ index) then mret None
  else any_cast_ptr T (items c !! index).

(** The elements of the vector are distinct live objects. *)
Definition pc_inv (c : PolymorphicContainer) (s : state) : Prop :=
  NoDup (items c) ∧ Forall (λ a, is_Some (objs s !! a)) (items c).

End advanced_example.

Arguments completed {_ _} r.
Arguments runtime_error {_ _} what_arg s.
Arguments from_config {_ _} r.
Arguments from_default {_ _} v.

(** ** A state to run the model on *)

Module Run.

#[local] Existing Instance Demo.types.
Import Demo.

Definition int : cpp_type := plain Int.
Definition double : cpp_type := plain Double.
Definition std_string : cpp_type := plain String.
Definition fragile : cpp_type := plain Fragile.
Definition const_std_string_ref : cpp_type := QT String true false LRef.
Definition fragile_ref : cpp_type := QT Fragile false false LRef.

Definition hello : string := "Hello, any!".

(** No object yet. *)
Definition s_init : state := State ∅ ∅.

(** [any a1 = 42; any a2 = std::string("Hello, any!"); any a3 = Fragile{true};
    any a4;] at the addresses 1 to 4. *)
Definition s_four : state :=
  State
    (<[1%positive := Any (Some 10%positive)]>
       (<[2%positive := Any (Some 20%positive)]>
          (<[3%positive := Any (Some 30%positive)]>
             (<[4%positive := Any None]> ∅))))
    (<[10%positive := holder Int 42%Z]>
       (<[20%positive := holder String hello]>
          (<[30%positive := holder Fragile true]> ∅))).

(** Store [42], ask for the type, probe as [double] and as [int], reset. *)
Definition scenario_int : M (type_info * option positive * option positive * bool) :=
  any_value 1%positive int 42%Z;;
  ti ← type 1%positive;
  as_double ← any_cast_ptr double (Some 1%positive);
  as_int ← any_cast_ptr int (Some 1%positive);
  reset 1%positive;;
  b ← has_value 1%positive;
  mret (ti, as_double, as_int, b).

(** Store a string, copy the container, overwrite the original through
    [any_cast<std::string&>], read both back. *)
Definition scenario_copy : M (cast_result std_string * cast_result std_string) :=
  any_value 1%positive std_string hello;;
  any_copy 2%positive 1%positive;;
  r ← any_cast from_lvalue (QT String false false LRef) 1%positive;
  match r with
  | by_ref p => store_value String p "changed"%string
  | by_value _ => undef
  end;;
  original ← any_cast from_const_lvalue std_string 1%positive;
  copy ← any_cast from_const_lvalue std_string 2%positive;
  mret (original, copy).

(** [any c = std::move(a2);] at address 5, then [a1 = std::move(c)]. *)
Definition scenario_move : M (bool * bool * type_info) :=
  any_move 5%positive 2%positive;;
  assign_move 1%positive 5%positive;;
  b2 ← has_value 2%positive;
  b5 ← has_value 5%positive;
  ti ← type 1%positive;
  mret (b2, b5, ti).

(** A manager with two entries, and a container with three elements, over
    the objects of [s_four]. *)
Definition cfg_two : ConfigManager :=
  {| config := <["app_name"%string := 2%positive]>
                 (<["max_connections"%string := 1%positive]> ∅) |}.

Definition pc_three : PolymorphicContainer :=
  {| items := [1%positive; 2%positive; 4%positive] |}.

(** [cfg.set("app_name", std::string(...)); cfg.set("max_connections", 100)]
    on a new manager. *)
Definition scenario_config : ConfigManager * outcome () :=
  match ConfigManager_set std_string "app_name" hello {| config := ∅ |} s_init
  with
  | (c1, Ret _ s1) => ConfigManager_set int "max_connections" 100%Z c1 s1
  | r => r
  end.

(** Two calls of [add] on a new container, the second one reallocating. *)
Definition scenario_container : M PolymorphicContainer :=
  c1 ← PolymorphicContainer_add false 1%positive {| items := [] |};
  PolymorphicContainer_add true 2%positive c1.

End Run.

(** ** Proofs *)

Section any_spec.
Context `{CppTypes}.

Ltac unfold_m :=
  unfold mbind, mret, M_bind, M_ret, bind, ret, throw, undef in *.

Lemma as_value_holder (T : tid) (v : value T) :
  as_value T (holder T v) = Some v.
Proof.
  unfold as_value. destruct (decide (T = T)) as [e|]; [|done].
  by rewrite (proof_irrel e eq_refl).
Qed.

Lemma decay_t_base (T : cpp_type) : decay_t T = plain (ty_base T).
Proof. done. Qed.

Lemma make_holder_ok ValueType v s :
  storing_throws ValueType v = None →
  make_holder ValueType v s =
    new_holder (holder (ty_base ValueType) v) s.
Proof.
  unfold storing_throws, make_holder, copy_construct, move_construct.
  destruct (forwards_as_lvalue ValueType); intros ->; done.
Qed.

Lemma make_holder_throws ValueType v e s :
  storing_throws ValueType v = Some e →
  make_holder ValueType v s = Throw (thrown e) s.
Proof.
  unfold storing_throws, make_holder, copy_construct, move_construct.
  destruct (forwards_as_lvalue ValueType); intros ->; done.
Qed.

(** *** The observers and the pointer form, computed *)

Lemma has_value_eq (a : addr) (s : state) :
  has_value a s =
    match objs s !! a with
    | Some x => Ret (bool_decide (content x ≠ None)) s
    | None => Undef
    end.
Proof. unfold has_value, read_any. unfold_m. by destruct (objs s !! a). Qed.

Lemma type_eq (a : addr) (s : state) :
  type a s =
    match objs s !! a with
    | Some (Any (Some l)) =>
        match heap s !! l with
        | Some h => Ret (holder_type h) s
        | None => Undef
        end
    | Some (Any None) => Ret typeid_void s
    | None => Undef
    end.
Proof.
  unfold type, read_any, deref. unfold_m.
  destruct (objs s !! a) as [[[l|]]|]; simpl; [|done..].
  by destruct (heap s !! l).
Qed.

Lemma any_cast_ptr_eq (T : cpp_type) (a : addr) (s : state) :
  any_cast_ptr T (Some a) s =
    match type a s with
    | Ret ti _ =>
        if decide (ti ≠ typeid T) then Ret None s
        else match objs s !! a with
             | Some (Any (Some l)) => Ret (Some l) s
             | _ => Undef
             end
    | Throw e s' => Throw e s'
    | Undef => Undef
    end.
Proof.
  unfold any_cast_ptr. unfold_m. rewrite type_eq.
  destruct (objs s !! a) as [[[l|]]|] eqn:Ha; simpl; [| |done].
  - destruct (heap s !! l); [|done].
    destruct (decide _); [done|]. unfold read_any. by rewrite Ha.
  - done.
Qed.

Lemma type_pure (a : addr) (s : state) :
  (∀ ti s', type a s = Ret ti s' → s' = s) ∧ (∀ e s', type a s ≠ Throw e s').
Proof.
  rewrite type_eq. split; intros; repeat case_match; congruence.
Qed.

Lemma any_cast_ptr_pure (T : cpp_type) (o : option addr) (s : state) :
  (∀ r s', any_cast_ptr T o s = Ret r s' → s' = s)
  ∧ (∀ e s', any_cast_ptr T o s ≠ Throw e s').
Proof.
  destruct o as [a|]; [|split; intros; simpl in *; unfold_m; congruence].
  rewrite any_cast_ptr_eq, type_eq.
  split; intros; repeat case_match; congruence.
Qed.

(** *** The constructors, [swap] and the destructor, computed *)

Lemma any_copy_eq (this other : addr) (s : state) :
  any_copy this other s =
    match objs s !! other with
    | Some (Any (Some l)) =>
        match heap s !! l with
        | Some (holder t v) =>
            match copy_throws t v with
            | Some e => Throw (thrown e) s
            | None =>
                let l' := fresh (dom (heap s)) in
                Ret () (State (<[this := Any (Some l')]> (objs s))
                              (<[l' := holder t v]> (heap s)))
            end
        | None => Undef
        end
    | Some (Any None) => Ret () (State (<[this := Any None]> (objs s)) (heap s))
    | None => Undef
    end.
Proof.
  unfold any_copy, read_any, deref, clone, copy_construct. unfold_m.
  destruct (objs s !! other) as [[[l|]]|]; simpl; [|done..].
  destruct (heap s !! l) as [[t v]|]; [|done].
  by destruct (copy_throws t v).
Qed.

Lemma any_move_eq (this other : addr) (s : state) :
  any_move this other s =
    match objs s !! other with
    | Some x =>
        Ret () (State (<[this := x]> (<[other := Any None]> (objs s))) (heap s))
    | None => Undef
    end.
Proof.
  unfold any_move, read_any, write_any, begin_lifetime. unfold_m.
  destruct (objs s !! other) as [[c]|] eqn:Ho; [|done]. by rewrite Ho.
Qed.

Lemma any_value_eq (this : addr) ValueType v (s : state) :
  any_value this ValueType v s =
    match storing_throws ValueType v with
    | Some e => Throw (thrown e) s
    | None =>
        let l := fresh (dom (heap s)) in
        Ret () (State (<[this := Any (Some l)]> (objs s))
                      (<[l := holder (ty_base ValueType) v]> (heap s)))
    end.
Proof.
  unfold any_value. unfold_m.
  destruct (storing_throws ValueType v) as [e|] eqn:Hthrows.
  - by rewrite (make_holder_throws _ _ e).
  - by rewrite make_holder_ok.
Qed.

Lemma swap_eq (this other : addr) (s : state) :
  swap this other s =
    match objs s !! this, objs s !! other with
    | Some x, Some y =>
        Ret () (State (<[other := x]> (<[this := y]> (objs s))) (heap s))
    | _, _ => Undef
    end.
Proof.
  unfold swap, read_any, write_any. unfold_m.
  destruct (objs s !! this) as [x|] eqn:Hx; [|done].
  destruct (objs s !! other) as [y|] eqn:Hy; [|done].
  rewrite Hx. simpl.
  destruct (decide (this = other)) as [->|Hne].
  - by rewrite lookup_insert_eq.
  - by rewrite lookup_insert_ne, Hy.
Qed.

Lemma any_dtor_eq (this : addr) (s : state) :
  any_dtor this s =
    match objs s !! this with
    | Some (Any (Some l)) =>
        match heap s !! l with
        | Some _ => Ret () (State (delete this (objs s)) (delete l (heap s)))
        | None => Undef
        end
    | Some (Any None) => Ret () (State (delete this (objs s)) (heap s))
    | None => Undef
    end.
Proof.
  unfold any_dtor, read_any, delete_holder, end_lifetime. unfold_m.
  destruct (objs s !! this) as [[[l|]]|]; simpl; [|done..].
  by destruct (heap s !! l).
Qed.

Lemma fresh_addr_None (s : state) : objs s !! fresh (dom (objs s)) = None.
Proof. apply not_elem_of_dom, is_fresh. Qed.

Lemma fresh_loc_None (s : state) : heap s !! fresh (dom (heap s)) = None.
Proof. apply not_elem_of_dom, is_fresh. Qed.

Lemma assign_tail (tmp this : addr) (x y : any) objs0 hp :
  objs0 !! tmp = None → objs0 !! this = Some y →
  (swap tmp this;; any_dtor tmp) (State (<[tmp := x]> objs0) hp)
  = release_old y (<[this := x]> objs0) hp.
Proof.
  intros Htmp Hthis. assert (tmp ≠ this) as Hne by congruence.
  unfold_m. rewrite swap_eq. simpl.
  rewrite lookup_insert_eq, lookup_insert_ne, Hthis by done.
  rewrite any_dtor_eq. simpl.
  rewrite lookup_insert_ne, lookup_insert_eq by done.
  rewrite delete_insert_ne, delete_insert_eq, delete_insert_eq by done.
  rewrite (delete_id objs0 tmp) by done.
  unfold release_old. by destruct y as [[ly|]].
Qed.

Lemma assign_move_eq (this rhs : addr) (y : any) (s : state) :
  objs s !! this = Some y →
  assign_move this rhs s =
    match objs s !! rhs with
    | Some x =>
        release_old (if decide (this = rhs) then Any None else y)
          (<[this := x]> (<[rhs := Any None]> (objs s))) (heap s)
    | None => Undef
    end.
Proof.
  intros Hthis. unfold assign_move, fresh_addr. unfold_m. rewrite any_move_eq.
  pose proof (fresh_addr_None s) as Hfresh.
  destruct (objs s !! rhs) as [x|] eqn:Hrhs; [|done].
  apply assign_tail.
  - rewrite lookup_insert_ne by congruence. done.
  - destruct (decide (this = rhs)) as [->|Hne].
    + by rewrite lookup_insert_eq.
    + by rewrite lookup_insert_ne.
Qed.

Lemma assign_copy_eq (this rhs : addr) (y : any) (s : state) :
  objs s !! this = Some y →
  assign_copy this rhs s =
    match any_copy (fresh (dom (objs s))) rhs s with
    | Ret _ s1 =>
        match objs s1 !! fresh (dom (objs s)) with
        | Some x => release_old y (<[this := x]> (objs s)) (heap s1)
        | None => Undef
        end
    | Throw e s1 => Throw e s1
    | Undef => Undef
    end.
Proof.
  intros Hthis. unfold assign_copy, fresh_addr. unfold_m.
  pose proof (fresh_addr_None s) as Hfresh.
  set (tmp := fresh (dom (objs s))) in *.
  rewrite any_copy_eq.
  destruct (objs s !! rhs) as [[[l|]]|] eqn:Hrhs; [| |done].
  - destruct (heap s !! l) as [[t v]|]; [|done].
    destruct (copy_throws t v); [done|]. simpl.
    rewrite lookup_insert_eq. by apply assign_tail.
  - simpl. rewrite lookup_insert_eq. by apply assign_tail.
Qed.

Lemma assign_value_eq (this : addr) ValueType v (y : any) (s : state) :
  objs s !! this = Some y →
  assign_value this ValueType v s =
    match storing_throws ValueType v with
    | Some e => Throw (thrown e) s
    | None =>
        let l := fresh (dom (heap s)) in
        release_old y (<[this := Any (Some l)]> (objs s))
          (<[l := holder (ty_base ValueType) v]> (heap s))
    end.
Proof.
  intros Hthis. unfold assign_value, fresh_addr. unfold_m.
  pose proof (fresh_addr_None s) as Hfresh.
  set (tmp := fresh (dom (objs s))) in *.
  rewrite any_value_eq.
  destruct (storing_throws ValueType v); [done|]. simpl.
  by apply assign_tail.
Qed.

(** *** [noexcept] members *)

Lemma nothrow_bind {A B} (m : M A) (k : A → M B) :
  nothrow m → (∀ x, nothrow (k x)) → nothrow (m ≫= k).
Proof.
  intros Hm Hk s e s'. unfold_m.
  destruct (m s) as [x s0| |] eqn:Hms; [apply Hk| |done].
  by destruct (Hm s e0 s0).
Qed.

Lemma nothrow_eq {A} (m : M A) :
  (∀ s, m s = Undef ∨ ∃ x s', m s = Ret x s') → nothrow m.
Proof. intros Hm s e s'. by destruct (Hm s) as [->|(? & ? & ->)]. Qed.

Lemma nothrow_swap (a b : addr) : nothrow (swap a b).
Proof.
  apply nothrow_eq. intros s. rewrite swap_eq.
  destruct (objs s !! a), (objs s !! b); eauto.
Qed.

Lemma nothrow_any_move (a b : addr) : nothrow (any_move a b).
Proof.
  apply nothrow_eq. intros s. rewrite any_move_eq.
  destruct (objs s !! b); eauto.
Qed.

Lemma nothrow_any_dtor (a : addr) : nothrow (any_dtor a).
Proof.
  apply nothrow_eq. intros s. rewrite any_dtor_eq.
  repeat case_match; eauto.
Qed.

Lemma nothrow_assign_move (a b : addr) : nothrow (assign_move a b).
Proof.
  unfold assign_move. apply nothrow_bind; [by apply nothrow_eq; eauto|].
  intros tmp. apply nothrow_bind; [apply nothrow_any_move|]. intros _.
  apply nothrow_bind; [apply nothrow_swap|]. intros _. apply nothrow_any_dtor.
Qed.

(** Ownership of a holder passing from [a] in [s] to [b] in [s']. *)
Lemma any_cast_ptr_transfer (a b : addr) (s s' : state) :
  objs s' !! b = objs s !! a →
  (∀ l, owns s a l → heap s' !! l = heap s !! l) →
  (∀ ti, type a s = Ret ti s → type b s' = Ret ti s')
  ∧ ∀ T p, any_cast_ptr T (Some a) s = Ret (Some p) s →
      any_cast_ptr T (Some b) s' = Ret (Some p) s'
      ∧ ∀ t, load t p s' = load t p s.
Proof.
  intros Hobj Hheap. unfold owns in Hheap.
  assert (∀ ti, type a s = Ret ti s → type b s' = Ret ti s') as Hty.
  { intros ti. rewrite !type_eq, Hobj.
    destruct (objs s !! a) as [[[l|]]|]; [|congruence..].
    rewrite (Hheap l) by done.
    destruct (heap s !! l); congruence. }
  split; [done|]. intros T p. rewrite !any_cast_ptr_eq.
  destruct (type a s) as [ti s0| |] eqn:Hti; [|done..].
  destruct (type_pure a s) as [Hs0 _]. specialize (Hs0 _ _ Hti) as ->.
  rewrite (Hty _ eq_refl), Hobj.
  destruct (decide _); [done|].
  destruct (objs s !! a) as [[[l|]]|]; [|done..].
  intros [= ->]. split; [done|]. intros t. unfold load.
  by rewrite Hheap.
Qed.

(** What a client observes of a container that owns [holder<t>{v}] at [l]. *)
Lemma owner_observes (s : state) (a : addr) (l : loc) (t : tid) (v : value t) :
  owns s a l → heap s !! l = Some (holder t v) →
  has_value a s = Ret true s
  ∧ type a s = Ret (typeid_of t) s
  ∧ any_cast_ptr (plain t) (Some a) s = Ret (Some l) s
  ∧ load t l s = Some v.
Proof.
  intros Ha Hl. unfold owns in Ha.
  rewrite any_cast_ptr_eq, has_value_eq, type_eq, Ha, Hl. simpl.
  split_and!; [done..| |].
  - by rewrite decide_False by (intros Hne; by apply Hne).
  - unfold load. rewrite Hl. apply as_value_holder.
Qed.

(** *** Every operation keeps the representation invariant *)

Ltac own_cases :=
  unfold owns in *; simpl in *;
  repeat match goal with
  | Hx : <[_ := _]> _ !! _ = Some _ |- _ =>
      apply lookup_insert_Some in Hx; destruct Hx as [[? ?]|[? ?]]
  | Hx : delete _ _ !! _ = Some _ |- _ =>
      apply lookup_delete_Some in Hx; destruct Hx as [? ?]
  end; simplify_eq.

Ltac uniq_close Huniq :=
  first
    [ done
    | by eapply Huniq
    | exfalso;
      match goal with
      | Hne : ?p ≠ ?q |- _ => apply Hne; by eapply Huniq
      end ].

Lemma tags_kept_refl (s : state) : tags_kept s s.
Proof. intros l h h' ? ?. congruence. Qed.

Lemma tags_kept_same_heap (o : gmap positive any) (s : state) :
  tags_kept s (State o (heap s)).
Proof. intros l h h' ? ?. simpl in *. congruence. Qed.

Lemma step_ok_same (s : state) (r : outcome ()) :
  rep_inv s → (r = Ret () s ∨ ∃ e, r = Throw e s) → step_ok s r.
Proof. intros ? ?. exists s. eauto using tags_kept_refl. Qed.

Lemma rep_inv_set_empty (a : addr) (s : state) :
  rep_inv s → rep_inv (State (<[a := Any None]> (objs s)) (heap s)).
Proof.
  intros [Hlive Huniq]. split.
  - intros a1 l Ho. own_cases. eauto.
  - intros a1 a2 l Ho1 Ho2. own_cases. eauto.
Qed.

Lemma rep_inv_set_fresh (a : addr) (l' : loc) (h : placeholder) (s : state) :
  rep_inv s → heap s !! l' = None →
  rep_inv (State (<[a := Any (Some l')]> (objs s)) (<[l' := h]> (heap s))).
Proof.
  intros [Hlive Huniq] Hfresh. split.
  - intros a1 l Ho. own_cases; simpl.
    + rewrite lookup_insert_eq. eauto.
    + destruct (Hlive a1 l) as [h' Hh']; [done|].
      rewrite lookup_insert_ne by congruence. eauto.
  - intros a1 a2 l Ho1 Ho2. own_cases; [done| | |by eapply Huniq].
    + exfalso. edestruct Hlive as [? ?]; [eassumption|congruence].
    + exfalso. edestruct Hlive as [? ?]; [eassumption|congruence].
Qed.

Lemma tags_kept_alloc (o : gmap positive any) (h : placeholder) (s : state) :
  tags_kept s (State o (<[fresh (dom (heap s)) := h]> (heap s))).
Proof.
  pose proof (fresh_loc_None s) as Hfresh.
  intros l x x' Hx Hx'. simpl in Hx'.
  apply lookup_insert_Some in Hx' as [[? ?]|[? ?]]; congruence.
Qed.

Lemma rep_inv_transfer (a b : addr) (x : any) (s : state) :
  rep_inv s → objs s !! b = Some x →
  rep_inv (State (<[a := x]> (<[b := Any None]> (objs s))) (heap s)).
Proof.
  intros [Hlive Huniq] Hb. split.
  - intros a1 l Ho. own_cases; eauto.
  - intros a1 a2 l Ho1 Ho2. own_cases; [done| | |by eauto].
    + exfalso. eauto.
    + exfalso. eauto.
Qed.

Lemma rep_inv_swap (a b : addr) (x y : any) (s : state) :
  rep_inv s → objs s !! a = Some x → objs s !! b = Some y →
  rep_inv (State (<[b := x]> (<[a := y]> (objs s))) (heap s)).
Proof.
  intros [Hlive Huniq] Ha Hb. split.
  - intros a1 l Ho. own_cases; eauto.
  - intros a1 a2 l Ho1 Ho2. own_cases; uniq_close Huniq.
Qed.

Lemma rep_inv_end_lifetime (a : addr) (s : state) :
  rep_inv s → rep_inv (State (delete a (objs s)) (heap s)).
Proof.
  intros [Hlive Huniq]. split.
  - intros a1 l Ho. own_cases. eauto.
  - intros a1 a2 l Ho1 Ho2. own_cases. eauto.
Qed.

Lemma rep_inv_free (l : loc) (s : state) :
  rep_inv s → (∀ a, ¬ owns s a l) →
  rep_inv (State (objs s) (delete l (heap s))).
Proof.
  intros [Hlive Huniq] Hl. split.
  - intros a1 l1 Ho. simpl. rewrite lookup_delete_ne; [by eauto|].
    intros <-. by apply (Hl a1).
  - intros a1 a2 l1 Ho1 Ho2. eauto.
Qed.

Lemma tags_kept_free (o : gmap positive any) (l : loc) (s0 s : state) :
  tags_kept s0 s → tags_kept s0 (State o (delete l (heap s))).
Proof.
  intros Hk l1 x x' Hx Hx'. simpl in Hx'.
  apply lookup_delete_Some in Hx' as [? ?]. eauto.
Qed.

Lemma rep_inv_store (l : loc) (h h' : placeholder) (s : state) :
  rep_inv s → heap s !! l = Some h →
  rep_inv (State (objs s) (<[l := h']> (heap s))).
Proof.
  intros [Hlive Huniq] Hl. split.
  - intros a1 l1 Ho. simpl. destruct (decide (l = l1)) as [->|?].
    + rewrite lookup_insert_eq. eauto.
    + rewrite lookup_insert_ne by done. eauto.
  - intros a1 a2 l1 Ho1 Ho2. eauto.
Qed.

Lemma step_release_old (s0 : state) (y : any) objs' hp :
  rep_inv (State objs' hp) → tags_kept s0 (State objs' hp) →
  (∀ l, content y = Some l →
        is_Some (hp !! l) ∧ ∀ a, ¬ owns (State objs' hp) a l) →
  step_ok s0 (release_old y objs' hp).
Proof.
  intros Hinv Hk Hy. unfold release_old.
  destruct (content y) as [ly|]; [|exists (State objs' hp); eauto].
  destruct (Hy ly eq_refl) as [[h ->] Hno].
  eexists. split; [by left|]. split.
  - by apply (rep_inv_free ly (State objs' hp)).
  - by apply (tags_kept_free objs' ly s0 (State objs' hp)).
Qed.

Lemma reset_eq (this : addr) (s : state) :
  reset this s =
    match objs s !! this with
    | Some y => release_old y (<[this := Any None]> (objs s)) (heap s)
    | None => Undef
    end.
Proof.
  unfold reset, read_any, write_any, delete_holder, release_old. unfold_m.
  destruct (objs s !! this) as [[[l|]]|] eqn:Hthis; [|by rewrite ?Hthis..].
  rewrite Hthis. simpl. by destruct (heap s !! l).
Qed.

Lemma any_dtor_eq' (this : addr) (s : state) :
  any_dtor this s =
    match objs s !! this with
    | Some y => release_old y (delete this (objs s)) (heap s)
    | None => Undef
    end.
Proof.
  rewrite any_dtor_eq. unfold release_old.
  by destruct (objs s !! this) as [[[l|]]|].
Qed.

Lemma step_assign_move (this rhs : addr) (s : state) :
  rep_inv s → is_Some (objs s !! this) → is_Some (objs s !! rhs) →
  step_ok s (assign_move this rhs s).
Proof.
  intros Hinv [y Hthis] [x Hrhs].
  rewrite (assign_move_eq _ _ _ _ Hthis), Hrhs.
  apply step_release_old;
    [by apply rep_inv_transfer|apply tags_kept_same_heap|].
  destruct Hinv as [Hlive Huniq].
  destruct (decide (this = rhs)) as [->|Hne]; [done|].
  intros ly Hy. destruct y as [c]. simpl in Hy. subst c. split; [by eauto|].
  intros a Ho. own_cases.
  - by apply Hne, (Huniq _ _ ly).
  - match goal with Hn : this ≠ a |- _ => by apply Hn, (Huniq _ _ ly) end.
Qed.

Lemma step_assign_copy (this rhs : addr) (s : state) :
  rep_inv s → is_Some (objs s !! this) → is_Some (objs s !! rhs) →
  step_ok s (assign_copy this rhs s).
Proof.
  intros Hinv [y Hthis] [x Hrhs].
  rewrite (assign_copy_eq _ _ _ _ Hthis), any_copy_eq, Hrhs.
  pose proof (fresh_loc_None s) as Hfresh.
  destruct x as [[l|]].
  - destruct (holder_live s Hinv rhs l Hrhs) as [[t v] Hl]. rewrite Hl.
    destruct (copy_throws t v) as [e|]; [apply step_ok_same; eauto|].
    simpl. rewrite lookup_insert_eq.
    apply step_release_old;
      [by apply rep_inv_set_fresh|apply tags_kept_alloc|].
    destruct Hinv as [Hlive Huniq].
    intros ly Hy. destruct y as [c]. simpl in Hy. subst c.
    destruct (Hlive this ly Hthis) as [hy Hly].
    assert (ly ≠ fresh (dom (heap s))) by congruence. split.
    + rewrite lookup_insert_ne by done. eauto.
    + intros a Ho. own_cases.
      match goal with Hn : this ≠ a |- _ => by apply Hn, (Huniq _ _ ly) end.
  - simpl. rewrite lookup_insert_eq.
    apply step_release_old;
      [by apply rep_inv_set_empty|apply tags_kept_same_heap|].
    destruct Hinv as [Hlive Huniq].
    intros ly Hy. destruct y as [c]. simpl in Hy. subst c. split; [by eauto|].
    intros a Ho. own_cases.
    match goal with Hn : this ≠ a |- _ => by apply Hn, (Huniq _ _ ly) end.
Qed.

Lemma step_assign_value (this : addr) ValueType v (s : state) :
  rep_inv s → is_Some (objs s !! this) →
  step_ok s (assign_value this ValueType v s).
Proof.
  intros Hinv [y Hthis].
  rewrite (assign_value_eq _ _ _ _ _ Hthis).
  pose proof (fresh_loc_None s) as Hfresh.
  destruct (storing_throws ValueType v) as [e|]; [apply step_ok_same; eauto|].
  simpl.
  apply step_release_old;
    [by apply rep_inv_set_fresh|apply tags_kept_alloc|].
  destruct Hinv as [Hlive Huniq].
  intros ly Hy. destruct y as [c]. simpl in Hy. subst c.
  destruct (Hlive this ly Hthis) as [hy Hly].
  assert (ly ≠ fresh (dom (heap s))) by congruence. split.
  - rewrite lookup_insert_ne by done. eauto.
  - intros a Ho. own_cases.
    match goal with Hn : this ≠ a |- _ => by apply Hn, (Huniq _ _ ly) end.
Qed.

Lemma step_reset (this : addr) (s : state) :
  rep_inv s → is_Some (objs s !! this) → step_ok s (reset this s).
Proof.
  intros Hinv [y Hthis]. rewrite reset_eq, Hthis.
  apply step_release_old;
    [by apply rep_inv_set_empty|apply tags_kept_same_heap|].
  destruct Hinv as [Hlive Huniq].
  intros ly Hy. destruct y as [c]. simpl in Hy. subst c. split; [by eauto|].
  intros a Ho. own_cases.
  match goal with Hn : this ≠ a |- _ => by apply Hn, (Huniq _ _ ly) end.
Qed.

Lemma step_any_dtor (this : addr) (s : state) :
  rep_inv s → is_Some (objs s !! this) → step_ok s (any_dtor this s).
Proof.
  intros Hinv [y Hthis]. rewrite any_dtor_eq', Hthis.
  apply step_release_old;
    [by apply rep_inv_end_lifetime|apply tags_kept_same_heap|].
  destruct Hinv as [Hlive Huniq].
  intros ly Hy. destruct y as [c]. simpl in Hy. subst c. split; [by eauto|].
  intros a Ho. own_cases.
  match goal with Hn : this ≠ a |- _ => by apply Hn, (Huniq _ _ ly) end.
Qed.

Lemma step_any_copy (this other : addr) (s : state) :
  rep_inv s → is_Some (objs s !! other) → step_ok s (any_copy this other s).
Proof.
  intros Hinv [[[l|]] Hother]; rewrite any_copy_eq, Hother.
  - destruct (holder_live s Hinv other l Hother) as [[t v] Hl]. rewrite Hl.
    destruct (copy_throws t v) as [e|]; [apply step_ok_same; eauto|].
    eexists. split; [by left|]. split.
    + apply rep_inv_set_fresh; [done|apply fresh_loc_None].
    + apply tags_kept_alloc.
  - eexists. split; [by left|]. split.
    + by apply rep_inv_set_empty.
    + apply tags_kept_same_heap.
Qed.

Lemma step_any_value (this : addr) ValueType v (s : state) :
  rep_inv s → step_ok s (any_value this ValueType v s).
Proof.
  intros Hinv. rewrite any_value_eq.
  destruct (storing_throws ValueType v) as [e|]; [apply step_ok_same; eauto|].
  eexists. split; [by left|]. split.
  - apply rep_inv_set_fresh; [done|apply fresh_loc_None].
  - apply tags_kept_alloc.
Qed.

Lemma step_swap (this other : addr) (s : state) :
  rep_inv s → is_Some (objs s !! this) → is_Some (objs s !! other) →
  step_ok s (swap this other s).
Proof.
  intros Hinv [x Hthis] [y Hother]. rewrite swap_eq, Hthis, Hother.
  eexists. split; [by left|]. split.
  - by apply rep_inv_swap.
  - apply tags_kept_same_heap.
Qed.

Lemma step_any_cast form (T : cpp_type) (a : addr) (s : state) :
  rep_inv s → is_Some (objs s !! a) →
  step_ok s ((any_cast form T a;; mret ()) s).
Proof.
  intros Hinv [[c] Ha]. unfold any_cast. unfold_m.
  rewrite any_cast_ptr_eq, type_eq, Ha.
  destruct c as [l|]; [|apply step_ok_same; eauto].
  destruct (holder_live s Hinv a l Ha) as [[t v] Hl]. rewrite Hl. simpl.
  destruct (decide _) as [|Heq]; [apply step_ok_same; eauto|].
  assert (t = ty_base T) as ->.
  { destruct (decide (t = ty_base T)) as [|Hne]; [done|].
    destruct Heq. simpl. unfold typeid. by intros [= ?]. }
  destruct (is_reference_v T); [apply step_ok_same; eauto|].
  assert (load (ty_base T) l s = Some v) as Hld.
  { unfold load. rewrite Hl. apply as_value_holder. }
  unfold load_value, copy_construct, move_construct, store_value. unfold_m.
  rewrite Hld.
  destruct form.
  - destruct (copy_throws (ty_base T) v); apply step_ok_same; eauto.
  - destruct (copy_throws (ty_base T) v); apply step_ok_same; eauto.
  - destruct (move_throws (ty_base T) v); [apply step_ok_same; eauto|].
    simpl. rewrite Hld. eexists. split; [by left|]. split.
    + by apply (rep_inv_store l (holder (ty_base T) v)).
    + intros l0 h h' Hh Hh'. simpl in Hh'.
      apply lookup_insert_Some in Hh' as [[<- <-]|[? ?]]; [|congruence].
      rewrite Hl in Hh. by injection Hh as <-.
Qed.

Lemma step_observer {A} (m : M A) (s : state) :
  rep_inv s → (∀ s0, m s0 = Undef ∨ ∃ x, m s0 = Ret x s0) → m s ≠ Undef →
  step_ok s ((m;; mret ()) s).
Proof.
  intros Hinv Hm Hdef. unfold_m. apply step_ok_same; [done|].
  destruct (Hm s) as [?|[x ->]]; [done|by left].
Qed.

Lemma rep_inv_observers (s : state) (a : addr) (x : any) :
  rep_inv s → objs s !! a = Some x →
  (has_value a s = Ret true s ↔ content x ≠ None)
  ∧ ∀ l, content x = Some l →
      ∃ h, heap s !! l = Some h ∧ type a s = Ret (holder_type h) s.
Proof.
  intros Hinv Ha. rewrite has_value_eq, type_eq, Ha. destruct x as [[l|]].
  - simpl. split; [done|]. intros ? [= <-].
    destruct (holder_live s Hinv a l Ha) as [h Hl]. rewrite Hl. eauto.
  - simpl. split; [|done]. split; [done|]. by intros [].
Qed.

Lemma exec_step_ok (o : operation) (s : state) :
  rep_inv s → live_operands o s → step_ok s (exec o s).
Proof.
  intros Hinv Hlive. unfold live_operands in Hlive.
  destruct o; simpl in *; repeat match goal with
    | Hf : Forall _ (_ :: _) |- _ => apply Forall_cons in Hf as [? Hf]
    end.
  - eexists. split; [by left|]. split;
      [by apply rep_inv_set_empty|apply tags_kept_same_heap].
  - by apply step_any_copy.
  - match goal with Hl : is_Some _ |- _ => destruct Hl as [x Hx] end.
    rewrite any_move_eq, Hx.
    eexists. split; [by left|]. split;
      [by apply rep_inv_transfer|apply tags_kept_same_heap].
  - by apply step_any_value.
  - by apply step_any_dtor.
  - by apply step_assign_copy.
  - by apply step_assign_move.
  - by apply step_assign_value.
  - by apply step_reset.
  - by apply step_swap.
  - match goal with Hl : is_Some _ |- _ => destruct Hl as [x Hx] end.
    apply step_observer; [done| |].
    + intros s0. rewrite has_value_eq. destruct (objs s0 !! this); eauto.
    + by rewrite has_value_eq, Hx.
  - match goal with Hl : is_Some _ |- _ => destruct Hl as [x Hx] end.
    apply step_observer; [done| |].
    + intros s0. rewrite type_eq. repeat case_match; eauto.
    + rewrite type_eq, Hx. destruct x as [[l|]]; [|done].
      by destruct (holder_live s Hinv this l Hx) as [h ->].
  - destruct operand as [a|]; [|by apply step_ok_same; eauto].
    simpl in Hlive. apply Forall_cons in Hlive as [[x Hx] _].
    apply step_observer; [done| |].
    + intros s0. rewrite any_cast_ptr_eq, type_eq.
      repeat case_match; simplify_eq; eauto.
    + rewrite any_cast_ptr_eq, type_eq, Hx. destruct x as [[l|]]; [|done].
      destruct (holder_live s Hinv a l Hx) as [h ->]. by destruct (decide _).
  - by apply step_any_cast.
  - by apply step_swap.
Qed.

Lemma stores_decayed_type (o : operation) (this : addr) (VT : cpp_type)
    (s s' : state) :
  rep_inv s → live_operands o s →
  stores o = Some (this, VT) → exec o s = Ret () s' →
  type this s' = Ret (typeid (decay_t VT)) s'.
Proof.
  intros Hinv Hlive Hst Hex. pose proof (fresh_loc_None s) as Hfresh.
  destruct o; simpl in Hst; simplify_eq; simpl in Hex.
  - rewrite any_value_eq in Hex.
    destruct (storing_throws VT v); cbv zeta in Hex; simplify_eq.
    rewrite type_eq. simpl. by rewrite !lookup_insert_eq.
  - apply Forall_cons in Hlive as [[y Hthis] _].
    rewrite (assign_value_eq _ _ _ _ _ Hthis) in Hex.
    destruct (storing_throws VT v); cbv zeta in Hex; simplify_eq.
    unfold release_old in Hex. simpl in Hex.
    destruct y as [[ly|]]; simpl in Hex.
    + destruct (holder_live s Hinv this ly Hthis) as [hy Hly].
      assert (ly ≠ fresh (dom (heap s))) as Hne by congruence.
      rewrite lookup_insert_ne, Hly in Hex by done. simplify_eq.
      rewrite type_eq. simpl.
      by rewrite lookup_insert_eq, lookup_delete_ne, lookup_insert_eq.
    + simplify_eq. rewrite type_eq. simpl. by rewrite !lookup_insert_eq.
Qed.

(** C1. Storing [v] with the converting constructor (the stored type is the
    decayed [ValueType]) and then calling the pointer form of [any_cast] at
    that type yields a non-null pointer to a value equal to [v]; at any type
    [U] that differs from it after decay the pointer form yields null. *)
Theorem any_cast_ptr_roundtrip (this : addr) (ValueType : cpp_type)
    (v : value (ty_base ValueType)) (s : state) :
  storing_throws ValueType v = None →
  ∃ s' p,
    any_value this ValueType v s = Ret () s'
    ∧ any_cast_ptr (decay_t ValueType) (Some this) s' = Ret (Some p) s'
    ∧ load (ty_base ValueType) p s' = Some v
    ∧ ∀ U, decay_t U ≠ decay_t ValueType →
           any_cast_ptr U (Some this) s' = Ret None s'.
Proof.
  intros Hok. unfold any_value. unfold_m.
  rewrite make_holder_ok by done. unfold new_holder, begin_lifetime.
  set (l := fresh (dom (heap s))).
  eexists _, l. split; [done|].
  unfold any_cast_ptr, type, read_any, deref, load. unfold_m. simpl.
  rewrite !lookup_insert_eq. simpl. rewrite !lookup_insert_eq. simpl.
  split_and!.
  - rewrite decide_False by (intros Hne; by apply Hne).
    simpl. by rewrite lookup_insert_eq.



  - apply as_value_holder.
  - intros U HU. rewrite decide_True; [done|].
    unfold typeid. intros [= Hb]. apply HU.
    by rewrite !decay_t_base, Hb.
Qed.

(** C2. A value form of [any_cast<T>] throws [bad_any_cast] exactly when
    the pointer form at [remove_cv_t<remove_reference_t<T>>] returns null,
    which is exactly when the operand is empty or its [type()] differs from
    the identifier of the decayed [T]; the state is then the one before the
    call.  The pointer form never throws. *)
Theorem any_cast_throws_iff_null (form : value_form) (T : cpp_type)
    (operand : addr) (s : state) :
  let value_type := remove_cv_t (remove_reference_t T) in
  (∀ s', any_cast form T operand s = Throw bad_any_cast s'
         ↔ any_cast_ptr value_type (Some operand) s = Ret None s ∧ s' = s)
  ∧ (any_cast_ptr value_type (Some operand) s = Ret None s
     ↔ has_value operand s = Ret false s
       ∨ ∃ ti, type operand s = Ret ti s ∧ ti ≠ typeid (decay_t T))
  ∧ (∀ U o e s', any_cast_ptr U o s ≠ Throw e s').
Proof.
  intros value_type. split_and!.
  - intros s'. unfold any_cast. fold value_type. unfold_m.
    destruct (any_cast_ptr_pure value_type (Some operand) s) as [Hst Hnt].
    destruct (any_cast_ptr value_type (Some operand) s)
      as [[p|] s0|e s0|] eqn:Hp.
    + specialize (Hst _ _ eq_refl) as ->.
      split; [|intros [[=] _]].
      destruct (is_reference_v T); [done|].
      unfold load_value, copy_construct, move_construct, store_value.
      unfold_m. intros Hthrow. exfalso.
      destruct (load (ty_base T) p s); [|done].
      destruct form; simpl in Hthrow; repeat case_match; congruence.
    + specialize (Hst _ _ eq_refl) as ->.
      split; [by intros [= ->]|by intros [_ ->]].
    + by destruct (Hnt e s0).
    + split; [done|by intros [[=] _]].
  - rewrite any_cast_ptr_eq, has_value_eq, type_eq.
    change (typeid value_type) with (typeid (decay_t T)).
    destruct (objs s !! operand) as [[[l|]]|]; simpl.
    + destruct (heap s !! l) as [h|].
      * case_decide as Hti.
        -- split; [|done]. intros _. right. by exists (holder_type h).
        -- split; [done|]. intros [[=]|(ti & [= <-] & ?)]. done.
      * split; [done|]. by intros [|(? & ? & ?)].
    + split; [|done]. intros _. by left.
    + split; [done|]. by intros [|(? & ? & ?)].
  - intros U o e s'. apply any_cast_ptr_pure.
Qed.

(** C3. After the default constructor, [has_value()] is false, [type()] is
    [typeid(void)], every pointer form returns null and every value form
    throws [bad_any_cast]; [has_value()] and [type()] never throw. *)
Theorem default_constructed_is_empty (this : addr) (s : state) :
  ∃ s',
    any_default this s = Ret () s'
    ∧ has_value this s' = Ret false s'
    ∧ type this s' = Ret typeid_void s'
    ∧ (∀ T, any_cast_ptr T (Some this) s' = Ret None s')
    ∧ (∀ form T, any_cast form T this s' = Throw bad_any_cast s')
    ∧ (∀ a s0 e s1, has_value a s0 ≠ Throw e s1 ∧ type a s0 ≠ Throw e s1).
Proof.
  eexists. split; [done|].
  assert (∀ T, any_cast_ptr T (Some this)
     (State (<[this:=Any None]> (objs s)) (heap s))
     = Ret None (State (<[this:=Any None]> (objs s)) (heap s))) as Hptr.
  { intros T. rewrite any_cast_ptr_eq, type_eq. simpl.
    rewrite lookup_insert_eq. by rewrite decide_True. }
  split_and!.
  - rewrite has_value_eq. simpl. by rewrite lookup_insert_eq.
  - rewrite type_eq. simpl. by rewrite lookup_insert_eq.
  - done.
  - intros form T. unfold any_cast. unfold_m. by rewrite Hptr.
  - intros a s0 e s1. split; [|apply type_pure].
    rewrite has_value_eq. by destruct (objs s0 !! a).
Qed.

(** C4. If the copy of the incoming value throws, copy assignment and value
    assignment propagate that exception and leave every object as it was: a
    target that held [v1] still reports the same [type()] and the same
    value. *)
Theorem assignment_strong_guarantee (this : addr) (l1 : loc) (t1 : tid)
    (v1 : value t1) (s : state) :
  owns s this l1 → heap s !! l1 = Some (holder t1 v1) →
  let unchanged (e : user_exn) (r : outcome ()) :=
    ∃ s', r = Throw (thrown e) s' ∧ s' = s
          ∧ type this s' = Ret (typeid_of t1) s'
          ∧ any_cast_ptr (plain t1) (Some this) s' = Ret (Some l1) s'
          ∧ load t1 l1 s' = Some v1 in
  (∀ rhs l t v e,
      owns s rhs l → heap s !! l = Some (holder t v) →
      copy_throws t v = Some e →
      unchanged e (assign_copy this rhs s))
  ∧ (∀ ValueType v e,
      storing_throws ValueType v = Some e →
      unchanged e (assign_value this ValueType v s)).
Proof.
  intros Hthis Hl1 unchanged.
  destruct (owner_observes _ _ _ _ _ Hthis Hl1) as (_ & Hty & Hptr & Hld).
  split.
  - intros rhs l t v e Hrhs Hl He. exists s.
    rewrite (assign_copy_eq _ _ _ _ Hthis), any_copy_eq, Hrhs, Hl, He. done.
  - intros ValueType v e He. exists s.
    rewrite (assign_value_eq _ _ _ _ _ Hthis), He. done.
Qed.

(** C5. The copy constructor clones: the copy owns a holder at an address
    that was not allocated before, with the same type and an equal value,
    and the source keeps its own; writing through the reference that
    [any_cast<T&>] gives on the copy changes what the copy holds and not
    what the source holds.  Copying an empty container gives an empty one. *)
Theorem copy_construction_is_deep (this other : addr) (s : state) :
  this ≠ other →
  (∀ l t v,
      owns s other l → heap s !! l = Some (holder t v) →
      copy_throws t v = None →
      ∃ s' l',
        any_copy this other s = Ret () s'
        ∧ owns s' this l' ∧ owns s' other l
        ∧ l' ≠ l ∧ heap s !! l' = None
        ∧ type this s' = Ret (typeid_of t) s'
        ∧ load t l' s' = Some v
        ∧ any_cast from_lvalue (QT t false false LRef) this s'
          = Ret (by_ref l') s'
        ∧ ∀ w, ∃ s'',
            store_value t l' w s' = Ret () s''
            ∧ any_cast_ptr (plain t) (Some this) s'' = Ret (Some l') s''
            ∧ load t l' s'' = Some w
            ∧ any_cast_ptr (plain t) (Some other) s'' = Ret (Some l) s''
            ∧ load t l s'' = Some v)
  ∧ (objs s !! other = Some (Any None) →
      ∃ s', any_copy this other s = Ret () s'
            ∧ has_value this s' = Ret false s'
            ∧ has_value other s' = Ret false s').
Proof.
  intros Hne. split.
  - intros l t v Hother Hl Hcopy.
    pose proof (fresh_loc_None s) as Hfresh.
    set (l' := fresh (dom (heap s))) in *.
    assert (l' ≠ l) as Hll by congruence.
    set (s' := State (<[this := Any (Some l')]> (objs s))
                     (<[l' := holder t v]> (heap s))).
    assert (owns s' this l') as Hthis'.
    { unfold owns. simpl. by rewrite lookup_insert_eq. }
    assert (owns s' other l) as Hother'.
    { unfold owns. simpl. by rewrite lookup_insert_ne. }
    assert (heap s' !! l' = Some (holder t v)) as Hl'.
    { simpl. by rewrite lookup_insert_eq. }
    destruct (owner_observes _ _ _ _ _ Hthis' Hl') as (_ & Hty & Hptr & Hld).
    exists s', l'. split_and!; try done.
    + by rewrite any_copy_eq, Hother, Hl, Hcopy.
    + unfold any_cast. unfold_m.
      change (remove_cv_t (remove_reference_t (QT t false false LRef)))
        with (plain t).
      by rewrite Hptr.
    + intros w.
      set (s'' := State (objs s') (<[l' := holder t w]> (heap s'))).
      exists s''. split; [unfold store_value; by rewrite Hld|].
      assert (heap s'' !! l' = Some (holder t w)) as Hw.
      { simpl. by rewrite lookup_insert_eq. }
      assert (heap s'' !! l = Some (holder t v)) as Hv.
      { simpl. by rewrite !lookup_insert_ne. }
      destruct (owner_observes s'' this l' t w Hthis' Hw) as (_ & _ & ? & ?).
      destruct (owner_observes s'' other l t v Hother' Hv) as (_ & _ & ? & ?).
      done.
  - intros Hother. eexists. rewrite any_copy_eq, Hother. split; [done|].
    rewrite !has_value_eq. simpl.
    by rewrite lookup_insert_eq, lookup_insert_ne, Hother.
Qed.

(** C6. For two distinct containers [a] and [b], move assignment
    [b = std::move(a)] and move construction of [b] from [a] return normally
    with [b] owning what [a] owned ([has_value()], [type()], the pointer
    [any_cast] gives and the value behind it are those of [a] before) and
    [a] empty; neither can throw. *)
Theorem move_empties_source (a b : addr) (x : any) (s : state) :
  rep_inv s → a ≠ b → objs s !! a = Some x →
  let transferred (s' : state) :=
    (∃ r, has_value a s = Ret r s ∧ has_value b s' = Ret r s')
    ∧ has_value a s' = Ret false s'
    ∧ (∀ ti, type a s = Ret ti s → type b s' = Ret ti s')
    ∧ (∀ T p, any_cast_ptr T (Some a) s = Ret (Some p) s →
         any_cast_ptr T (Some b) s' = Ret (Some p) s'
         ∧ ∀ t, load t p s' = load t p s) in
  (is_Some (objs s !! b) →
     ∃ s', assign_move b a s = Ret () s' ∧ transferred s')
  ∧ (∃ s', any_move b a s = Ret () s' ∧ transferred s')
  ∧ nothrow (assign_move b a) ∧ nothrow (any_move b a).
Proof.
  intros Hinv Hne Ha transferred.
  assert (∀ objs' hp,
    objs' = <[b := x]> (<[a := Any None]> (objs s)) →
    (∀ l, owns s a l → hp !! l = heap s !! l) →
    transferred (State objs' hp)) as Hgoal.
  { intros objs' hp -> Hhp.
    assert (objs (State (<[b := x]> (<[a := Any None]> (objs s))) hp) !! b
            = objs s !! a) as Hb.
    { simpl. by rewrite lookup_insert_eq. }
    destruct (any_cast_ptr_transfer a b s _ Hb Hhp) as [Hty Hptr].
    unfold transferred. split_and!; [|  |done..].
    - exists (bool_decide (content x ≠ None)).
      rewrite !has_value_eq, Ha. simpl. by rewrite lookup_insert_eq.
    - rewrite has_value_eq. simpl.
      by rewrite lookup_insert_ne, lookup_insert_eq. }
  split_and!.
  - intros [y Hb]. rewrite (assign_move_eq _ _ _ _ Hb), Ha.
    rewrite decide_False by done. unfold release_old.
    destruct y as [[lb|]]; simpl.
    + destruct (holder_live s Hinv b lb Hb) as [hb Hlb]. rewrite Hlb.
      eexists. split; [done|]. apply Hgoal; [done|].
      intros l Hl. apply lookup_delete_ne. intros ->.
      by apply Hne, (holder_unique s Hinv a b l).
    + eexists. split; [done|]. by apply Hgoal.
  - rewrite any_move_eq, Ha. eexists. split; [done|]. by apply Hgoal.
  - apply nothrow_assign_move.
  - apply nothrow_any_move.
Qed.

(** C7. [a.swap(b)] returns normally, exchanges the [content] pointers of
    the two containers and touches nothing else: no other container, and no
    holder in the heap (so no stored value is copied or moved); swapping
    back restores the state.  [a] and [b] may be empty, and may be the same
    container. *)
Theorem swap_exchanges_and_restores (a b : addr) (x y : any) (s : state) :
  objs s !! a = Some x → objs s !! b = Some y →
  (∃ s', swap a b s = Ret () s'
         ∧ objs s' !! a = Some y ∧ objs s' !! b = Some x
         ∧ (∀ c, c ≠ a → c ≠ b → objs s' !! c = objs s !! c)
         ∧ heap s' = heap s
         ∧ swap b a s' = Ret () s)
  ∧ nothrow (swap a b).
Proof.
  intros Ha Hb. split; [|apply nothrow_swap].
  eexists. rewrite swap_eq, Ha, Hb. split; [done|]. simpl.
  assert (a = b → x = y) as Hxy by (intros ->; congruence).
  split_and!.
  - destruct (decide (a = b)) as [Hab|Hab].
    + subst b. rewrite lookup_insert_eq. by rewrite Hxy.
    + by rewrite lookup_insert_ne, lookup_insert_eq.
  - by rewrite lookup_insert_eq.
  - intros c Hca Hcb. by rewrite !lookup_insert_ne.
  - done.
  - rewrite swap_eq. simpl. rewrite lookup_insert_eq.
    destruct (decide (a = b)) as [Hab|Hab].
    + subst b. rewrite lookup_insert_eq. do 2 f_equal.
      destruct s as [o h]. simpl in *. f_equal.
      rewrite !insert_insert_eq. by apply insert_id.
    + rewrite lookup_insert_ne, lookup_insert_eq by done.
      destruct s as [o h]. simpl in *. do 2 f_equal.
      rewrite insert_insert_eq, (insert_insert_ne _ b a) by done.
      rewrite insert_insert_eq, (insert_id o b y) by done.
      by apply insert_id.
Qed.

(** C8. When the operand of the rvalue form [any_cast<T>(std::move(a))]
    holds a [T] (up to decay), the call moves the value out of the holder or
    hands out a reference to it, and the container keeps its holder:
    [has_value()] is still true and [type()] is what it was; the slot holds
    the moved-from value. *)
Theorem rvalue_cast_keeps_holder (a : addr) (l : loc) (T : cpp_type)
    (v : value (ty_base T)) (s : state) :
  owns s a l → heap s !! l = Some (holder (ty_base T) v) →
  ∃ s',
    (if is_reference_v T
     then any_cast from_rvalue T a s = Ret (by_ref l) s' ∧ s' = s
     else match move_throws (ty_base T) v with
          | None =>
              any_cast from_rvalue T a s = Ret (by_value v) s'
              ∧ load (ty_base T) l s' = Some (moved_from (ty_base T) v)
          | Some e => any_cast from_rvalue T a s = Throw (thrown e) s' ∧ s' = s
          end)
    ∧ owns s' a l
    ∧ has_value a s' = Ret true s'
    ∧ type a s = Ret (typeid_of (ty_base T)) s
    ∧ type a s' = Ret (typeid_of (ty_base T)) s'.
Proof.
  intros Ha Hl.
  destruct (owner_observes _ _ _ _ _ Ha Hl) as (Hhas & Hty & Hptr & Hld).
  unfold any_cast. unfold_m.
  change (remove_cv_t (remove_reference_t T)) with (plain (ty_base T)).
  rewrite Hptr.
  destruct (is_reference_v T); [by exists s|].
  unfold load_value, move_construct, store_value. rewrite Hld. unfold_m.
  destruct (move_throws (ty_base T) v) as [e|]; [by exists s|].
  simpl. rewrite Hld.
  set (s' := State (objs s)
    (<[l := holder (ty_base T) (moved_from (ty_base T) v)]> (heap s))).
  assert (heap s' !! l = Some (holder _ (moved_from (ty_base T) v))) as Hl'.
  { simpl. by rewrite lookup_insert_eq. }
  destruct (owner_observes s' a l _ _ Ha Hl') as (? & ? & ? & ?).
  by exists s'.
Qed.

(** C9. Every operation of the interface, called on live objects in a state
    where each non-null [content] points to an allocated holder that no
    other container points to, ends (normally or by an exception) in such a
    state again.  There [has_value()] is true exactly for the containers
    whose [content] is non-null, [type()] of such a container is the type
    its holder was instantiated with, no holder has changed its type, and
    after storing a value that type is [typeid] of the decayed static type
    of the argument. *)
Theorem operations_preserve_rep_inv (o : operation) (s : state) :
  rep_inv s → live_operands o s →
  ∃ s',
    (exec o s = Ret () s' ∨ ∃ e, exec o s = Throw e s')
    ∧ rep_inv s'
    ∧ (∀ a x, objs s' !! a = Some x →
         (has_value a s' = Ret true s' ↔ content x ≠ None)
         ∧ ∀ l, content x = Some l →
             ∃ h, heap s' !! l = Some h
                  ∧ type a s' = Ret (holder_type h) s')
    ∧ tags_kept s s'
    ∧ (∀ this ValueType,
         stores o = Some (this, ValueType) → exec o s = Ret () s' →
         type this s' = Ret (typeid (decay_t ValueType)) s').
Proof.
  intros Hinv Hlive.
  destruct (exec_step_ok o s Hinv Hlive) as (s' & Hout & Hinv' & Hkept).
  exists s'. split_and!; [done..| |done|].
  - intros a x Ha. by apply rep_inv_observers.
  - intros this ValueType Hst Hex.
    by apply (stores_decayed_type o this ValueType s s').
Qed.

(** C10. Self move assignment [a = std::move(a)] returns normally and
    leaves the whole state, hence what [a] holds, [a.has_value()] and
    [a.type()], as it was: the temporary takes the holder and the swap gives
    it back. *)
Theorem self_move_assignment_keeps_value (a : addr) (x : any) (s : state) :
  objs s !! a = Some x →
  assign_move a a s = Ret () s
  ∧ ∃ s1, any_move (fresh (dom (objs s))) a s = Ret () s1
          ∧ has_value a s1 = Ret false s1
          ∧ (swap (fresh (dom (objs s))) a;; any_dtor (fresh (dom (objs s)))) s1
            = Ret () s.
Proof.
  intros Ha.
  assert (<[a := x]> (<[a := Any None]> (objs s)) = objs s) as Hback.
  { rewrite insert_insert_eq. by apply insert_id. }
  split.
  - rewrite (assign_move_eq _ _ _ _ Ha), Ha, decide_True by done.
    unfold release_old. simpl. rewrite Hback. by destruct s.
  - pose proof (fresh_addr_None s) as Hfresh.
    set (tmp := fresh (dom (objs s))) in *.
    assert (a ≠ tmp) as Hne by congruence.
    rewrite any_move_eq, Ha. eexists. split; [done|]. split.
    + rewrite has_value_eq. simpl.
      by rewrite lookup_insert_ne, lookup_insert_eq.
    + rewrite (assign_tail tmp a x (Any None));
        [|by rewrite lookup_insert_ne|by rewrite lookup_insert_eq].
      unfold release_old. simpl. rewrite Hback. by destruct s.
Qed.

(** ** Further properties of [any.hpp] *)

Lemma release_old_frees (y : any) objs' hp (s' : state) :
  release_old y objs' hp = Ret () s' →
  objs s' = objs'
  ∧ (∀ l, content y = Some l → heap s' !! l = None)
  ∧ (∀ l, content y ≠ Some l → heap s' !! l = hp !! l).
Proof.
  unfold release_old. destruct (content y) as [ly|].
  - destruct (hp !! ly); [|done]. intros [= <-]. simpl. split_and!; [done|..].
    + intros l [= <-]. apply lookup_delete_eq.
    + intros l Hl. apply lookup_delete_ne. congruence.
  - intros [= <-]. by split_and!.
Qed.

Lemma release_old_runs (y : any) objs' hp :
  (∀ l, content y = Some l → is_Some (hp !! l)) →
  ∃ s', release_old y objs' hp = Ret () s'.
Proof.
  intros Hy. unfold release_old. destruct (content y) as [ly|]; [|eauto].
  destruct (Hy ly eq_refl) as [h ->]. eauto.
Qed.

Lemma nothrow_release_old (y : any) objs' hp e s' :
  release_old y objs' hp ≠ Throw e s'.
Proof. unfold release_old. by repeat case_match. Qed.

Lemma nothrow_reset (a : addr) : nothrow (reset a).
Proof.
  intros s e s'. rewrite reset_eq. destruct (objs s !! a); [|done].
  apply nothrow_release_old.
Qed.

(** X1. [reset()] on a live container returns normally and leaves it empty
    ([has_value()] false, [type()] is [typeid(void)]); the holder it owned
    is deallocated, every other container and its holder are untouched, a
    second [reset()] changes nothing, and [reset()] cannot throw. *)
Theorem reset_releases (a : addr) (x : any) (s : state) :
  rep_inv s → objs s !! a = Some x →
  (∃ s', reset a s = Ret () s'
         ∧ has_value a s' = Ret false s'
         ∧ type a s' = Ret typeid_void s'
         ∧ (∀ l, content x = Some l → heap s' !! l = None)
         ∧ (∀ b, b ≠ a → objs s' !! b = objs s !! b)
         ∧ (∀ b l, b ≠ a → owns s b l → heap s' !! l = heap s !! l)
         ∧ reset a s' = Ret () s')
  ∧ nothrow (reset a).
Proof.
  intros Hinv Ha. split; [|apply nothrow_reset].
  rewrite reset_eq, Ha.
  destruct (release_old_runs x (<[a := Any None]> (objs s)) (heap s))
    as [s' Hs'].
  { intros l Hl. apply (holder_live s Hinv a l). unfold owns.
    destruct x as [c]. simpl in Hl. by subst c. }
  destruct (release_old_frees _ _ _ _ Hs') as (Hobjs & Hfreed & Hkept).
  exists s'. split; [done|].
  assert (objs s' !! a = Some (Any None)) as Ha'.
  { by rewrite Hobjs, lookup_insert_eq. }
  split_and!.
  - by rewrite has_value_eq, Ha'.
  - by rewrite type_eq, Ha'.
  - done.
  - intros b Hb. by rewrite Hobjs, lookup_insert_ne.
  - intros b l Hb Hl. apply Hkept. intros Hx. apply Hb.
    apply (holder_unique s Hinv b a l); [done|].
    unfold owns. destruct x as [c]. simpl in Hx. by subst c.
  - rewrite reset_eq, Ha'. unfold release_old. simpl.
    destruct s' as [o h]. simpl in *. subst o.
    by rewrite insert_insert_eq.
Qed.

(** X2. Copy assignment that does not throw leaves [*this] owning a newly
    allocated holder with the type and value of [rhs], and deallocates the
    holder [*this] owned before; [rhs] keeps its own holder.  On
    self-assignment the container keeps its value but in new storage: the
    holder it owned before the call is gone.  Assigning from an empty [rhs]
    empties [*this]. *)
Theorem copy_assignment_replaces (this rhs : addr) (y : any) (s : state) :
  rep_inv s → objs s !! this = Some y →
  (∀ l t v,
      owns s rhs l → heap s !! l = Some (holder t v) →
      copy_throws t v = None →
      ∃ s' l',
        assign_copy this rhs s = Ret () s'
        ∧ owns s' this l' ∧ heap s !! l' = None
        ∧ type this s' = Ret (typeid_of t) s'
        ∧ load t l' s' = Some v
        ∧ (∀ ly, content y = Some ly → heap s' !! ly = None)
        ∧ (this = rhs → heap s' !! l = None)
        ∧ (this ≠ rhs → owns s' rhs l ∧ load t l s' = Some v))
  ∧ (objs s !! rhs = Some (Any None) →
      ∃ s', assign_copy this rhs s = Ret () s'
            ∧ has_value this s' = Ret false s'
            ∧ ∀ ly, content y = Some ly → heap s' !! ly = None).
Proof.
  intros Hinv Hthis.
  assert (∀ ly, content y = Some ly → owns s this ly) as Hy.
  { intros ly Hly. unfold owns. destruct y as [c]. simpl in Hly. by subst c. }
  pose proof (fresh_loc_None s) as Hfresh.
  split.
  - intros l t v Hrhs Hl Hcopy.
    rewrite (assign_copy_eq _ _ _ _ Hthis), any_copy_eq, Hrhs, Hl, Hcopy.
    simpl. rewrite lookup_insert_eq.
    set (l' := fresh (dom (heap s))) in *.
    destruct (release_old_runs y (<[this := Any (Some l')]> (objs s))
                (<[l' := holder t v]> (heap s))) as [s' Hs'].
    { intros ly Hly. destruct (holder_live s Hinv this ly (Hy ly Hly)) as [h Hh].
      rewrite lookup_insert_ne by congruence. eauto. }
    destruct (release_old_frees _ _ _ _ Hs') as (Hobjs & Hfreed & Hkept).
    assert (content y ≠ Some l') as Hyl'.
    { intros Hly. destruct (holder_live s Hinv this l' (Hy l' Hly)).
      congruence. }
    assert (owns s' this l') as Hthis'.
    { unfold owns. by rewrite Hobjs, lookup_insert_eq. }
    assert (heap s' !! l' = Some (holder t v)) as Hl'.
    { by rewrite (Hkept l' Hyl'), lookup_insert_eq. }
    destruct (owner_observes _ _ _ _ _ Hthis' Hl') as (_ & Hty & _ & Hld).
    exists s', l'. split_and!; try done.
    + intros ->. apply Hfreed. unfold owns in Hrhs. rewrite Hthis in Hrhs.
      by injection Hrhs as ->.
    + intros Hne.
      assert (owns s' rhs l) as Hrhs'.
      { unfold owns. by rewrite Hobjs, lookup_insert_ne. }
      assert (heap s' !! l = Some (holder t v)) as Hl2.
      { rewrite Hkept; [by rewrite lookup_insert_ne by congruence|].
        intros Hly. apply Hne.
        by apply (holder_unique s Hinv this rhs l); [apply Hy|]. }
      by destruct (owner_observes _ _ _ _ _ Hrhs' Hl2) as (_ & _ & _ & ?).
  - intros Hrhs.
    rewrite (assign_copy_eq _ _ _ _ Hthis), any_copy_eq, Hrhs.
    simpl. rewrite lookup_insert_eq.
    destruct (release_old_runs y (<[this := Any None]> (objs s)) (heap s))
      as [s' Hs'].
    { intros ly Hly. by apply (holder_live s Hinv this ly), Hy. }
    destruct (release_old_frees _ _ _ _ Hs') as (Hobjs & Hfreed & Hkept).
    exists s'. split_and!; [done| |done].
    by rewrite has_value_eq, Hobjs, lookup_insert_eq.
Qed.


(** X4. The destructor of a live container returns normally, ends the
    lifetime of the object and deallocates the holder it owned; every other
    container and its holder are untouched. *)
Theorem destructor_releases (a : addr) (x : any) (s : state) :
  rep_inv s → objs s !! a = Some x →
  ∃ s', any_dtor a s = Ret () s'
        ∧ objs s' !! a = None
        ∧ (∀ l, content x = Some l → heap s' !! l = None)
        ∧ (∀ b, b ≠ a → objs s' !! b = objs s !! b)
        ∧ (∀ b l, b ≠ a → owns s b l → heap s' !! l = heap s !! l).
Proof.
  intros Hinv Ha. rewrite any_dtor_eq', Ha.
  destruct (release_old_runs x (delete a (objs s)) (heap s)) as [s' Hs'].
  { intros l Hl. apply (holder_live s Hinv a l). unfold owns.
    destruct x as [c]. simpl in Hl. by subst c. }
  destruct (release_old_frees _ _ _ _ Hs') as (Hobjs & Hfreed & Hkept).
  exists s'. split_and!; [done| |done| |].
  - by rewrite Hobjs, lookup_delete_eq.
  - intros b Hb. by rewrite Hobjs, lookup_delete_ne.
  - intros b l Hb Hl. apply Hkept. intros Hx. apply Hb.
    apply (holder_unique s Hinv b a l); [done|].
    unfold owns. destruct x as [c]. simpl in Hx. by subst c.
Qed.

(** X5. Copy construction into unused storage followed by the destruction
    of the copy gives back the state before: nothing is leaked and the
    source is not disturbed.  When the copy constructor of the held value
    throws, that exception comes out and the state is also the one
    before. *)
Theorem copy_then_destroy_restores (tmp a : addr) (x : any) (s : state) :
  rep_inv s → objs s !! a = Some x → objs s !! tmp = None →
  (any_copy tmp a;; any_dtor tmp) s = Ret () s
  ∨ ∃ l t v e,
      owns s a l ∧ heap s !! l = Some (holder t v)
      ∧ copy_throws t v = Some e
      ∧ (any_copy tmp a;; any_dtor tmp) s = Throw (thrown e) s.
Proof.
  intros Hinv Ha Htmp. pose proof (fresh_loc_None s) as Hfresh.
  unfold_m. rewrite any_copy_eq, Ha. destruct x as [[l|]].
  - destruct (holder_live s Hinv a l Ha) as [[t v] Hl]. rewrite Hl.
    destruct (copy_throws t v) as [e|] eqn:Hcopy.
    + right. by exists l, t, v, e.
    + left. cbn beta iota zeta. rewrite any_dtor_eq. simpl.
      rewrite !lookup_insert_eq.
      rewrite !delete_insert_eq, !delete_id by done. by destruct s.
  - left. cbn beta iota zeta. rewrite any_dtor_eq. simpl.
    rewrite lookup_insert_eq.
    rewrite delete_insert_eq, delete_id by done. by destruct s.
Qed.

(** X6. The value forms of [any_cast] on an lvalue ([const any&] and
    [any&]) never change the state, whatever the outcome.  On a container
    that holds a [T] (up to decay) they return a reference to the held
    value when [T] is a reference type, and otherwise a copy equal to it,
    or the exception of its copy constructor. *)
Theorem lvalue_cast_reads (form : value_form) (T : cpp_type) (a : addr)
    (s : state) :
  form ≠ from_rvalue →
  (∀ r s', any_cast form T a s = Ret r s' → s' = s)
  ∧ (∀ e s', any_cast form T a s = Throw e s' → s' = s)
  ∧ ∀ l (v : value (ty_base T)),
      owns s a l → heap s !! l = Some (holder (ty_base T) v) →
      any_cast form T a s =
        if is_reference_v T then Ret (by_ref l) s
        else match copy_throws (ty_base T) v with
             | None => Ret (by_value v) s
             | Some e => Throw (thrown e) s
             end.
Proof.
  intros Hform.
  assert (∀ r, any_cast form T a s = r →
               match r with Ret _ s' | Throw _ s' => s' = s | Undef => True end)
    as Hpure.
  { intros r <-. unfold any_cast. unfold_m.
    destruct (any_cast_ptr_pure (remove_cv_t (remove_reference_t T))
                (Some a) s) as [Hst Hnt].
    destruct (any_cast_ptr _ _ s) as [[p|] s0|e s0|] eqn:Hp;
      [| |by destruct (Hnt e s0)|done].
    - specialize (Hst _ _ eq_refl) as ->.
      destruct (is_reference_v T); [done|].
      unfold load_value, copy_construct. unfold_m.
      destruct (load (ty_base T) p s); [|done].
      destruct form; [| |done]; by destruct (copy_throws _ _).
    - by specialize (Hst _ _ eq_refl) as ->. }
  split_and!.
  - intros r s' Hr. apply (Hpure _ Hr).
  - intros e s' Hr. apply (Hpure _ Hr).
  - intros l v Ha Hl.
    destruct (owner_observes _ _ _ _ _ Ha Hl) as (_ & _ & Hptr & Hld).
    unfold any_cast. unfold_m.
    change (remove_cv_t (remove_reference_t T)) with (plain (ty_base T)).
    rewrite Hptr. destruct (is_reference_v T); [done|].
    unfold load_value, copy_construct. rewrite Hld. unfold_m.
    destruct form; [| |done]; by destruct (copy_throws _ _).
Qed.


(** X8. Swapping is symmetric: the non-member [swap(lhs, rhs)] and
    [rhs.swap(lhs)] have the same outcome in every state, also when the two
    are the same container or dead objects. *)
Theorem swap_symmetric (lhs rhs : addr) (s : state) :
  swap_nonmember lhs rhs s = swap rhs lhs s.
Proof.
  unfold swap_nonmember. rewrite !swap_eq.
  destruct (objs s !! lhs) as [x|] eqn:Hl, (objs s !! rhs) as [y|] eqn:Hr;
    try done.
  destruct (decide (lhs = rhs)) as [->|Hne].
  - by simplify_eq.
  - by rewrite insert_insert_ne.
Qed.

(** *** No operation leaks a holder *)

Lemma no_leak_release (y : any) objs' hp (s' : state) :
  (∀ l, is_Some (hp !! l) → content y ≠ Some l →
        ∃ a, objs' !! a = Some (Any (Some l))) →
  release_old y objs' hp = Ret () s' → no_leak s'.
Proof.
  intros Howned Hrun.
  destruct (release_old_frees _ _ _ _ Hrun) as (Hobjs & Hfreed & Hkept).
  intros l [h Hl]. unfold owns. rewrite Hobjs.
  destruct (decide (content y = Some l)) as [Hy|Hy].
  - rewrite (Hfreed l Hy) in Hl. done.
  - apply Howned; [|done]. rewrite <- (Hkept l Hy). eauto.
Qed.

Lemma any_cast_final_state form (T : cpp_type) (a : addr) (s : state) :
  rep_inv s → is_Some (objs s !! a) →
  ∃ s', ((any_cast form T a;; mret ()) s = Ret () s'
         ∨ ∃ e, (any_cast form T a;; mret ()) s = Throw e s')
        ∧ (s' = s
           ∨ ∃ l h h', heap s !! l = Some h
                       ∧ s' = State (objs s) (<[l := h']> (heap s))).
Proof.
  intros Hinv [[c] Ha]. unfold any_cast. unfold_m.
  rewrite any_cast_ptr_eq, type_eq, Ha.
  destruct c as [l|]; [|exists s; eauto].
  destruct (holder_live s Hinv a l Ha) as [[t v] Hl]. rewrite Hl. simpl.
  destruct (decide _) as [|Heq]; [exists s; eauto|].
  assert (t = ty_base T) as ->.
  { destruct (decide (t = ty_base T)) as [|Hne]; [done|].
    destruct Heq. simpl. unfold typeid. by intros [= ?]. }
  destruct (is_reference_v T); [exists s; eauto|].
  assert (load (ty_base T) l s = Some v) as Hld.
  { unfold load. rewrite Hl. apply as_value_holder. }
  unfold load_value, copy_construct, move_construct, store_value. unfold_m.
  rewrite Hld.
  destruct form.
  - destruct (copy_throws (ty_base T) v); exists s; eauto.
  - destruct (copy_throws (ty_base T) v); exists s; eauto.
  - destruct (move_throws (ty_base T) v); [exists s; eauto|].
    simpl. rewrite Hld. eexists. split; [by left|]. right. eauto.
Qed.

Lemma no_leak_swap (this other : addr) (s : state) :
  no_leak s → is_Some (objs s !! this) → is_Some (objs s !! other) →
  ∃ s', (swap this other s = Ret () s' ∨ ∃ e, swap this other s = Throw e s')
        ∧ no_leak s'.
Proof.
  intros Hleak [x Hthis] [y Hother]. rewrite swap_eq, Hthis, Hother.
  eexists. split; [by left|].
  intros l Hl. destruct (Hleak l Hl) as [b Hb]. unfold owns in *. simpl.
  destruct (decide (b = this)) as [->|Hbt].
  - exists other. rewrite lookup_insert_eq. congruence.
  - destruct (decide (b = other)) as [->|Hbo].
    + exists this. rewrite lookup_insert_ne, lookup_insert_eq by done.
      congruence.
    + exists b. by rewrite !lookup_insert_ne.
Qed.

(** X9. No operation of the interface leaks: started on live operands (a
    constructor on storage that holds no object) in a state where the
    representation invariant holds and every allocated holder is owned by
    some container, each of them ends, normally or by an exception, in a
    state where every allocated holder is again owned by some container. *)
Theorem operations_do_not_leak (o : operation) (s : state) :
  rep_inv s → no_leak s → live_operands o s → fresh_storage o s →
  ∃ s', (exec o s = Ret () s' ∨ ∃ e, exec o s = Throw e s') ∧ no_leak s'.
Proof.
  intros Hinv Hleak Hlive Hfresh. pose proof (fresh_loc_None s) as Hnew.
  assert (∀ a y ly, objs s !! a = Some y → content y = Some ly → owns s a ly)
    as Hown.
  { intros a [c] ly Ha Hc. unfold owns. simpl in Hc. by subst c. }
  assert (∀ (y : any) objs' hp,
    (∀ l, content y = Some l → is_Some (hp !! l)) →
    (∀ l, is_Some (hp !! l) → content y ≠ Some l →
          ∃ a, objs' !! a = Some (Any (Some l))) →
    ∃ s', (release_old y objs' hp = Ret () s'
           ∨ ∃ e, release_old y objs' hp = Throw e s') ∧ no_leak s') as Hrel.
  { intros y objs' hp Hy Howned.
    destruct (release_old_runs y objs' hp Hy) as [s' Hs'].
    exists s'. split; [by left|]. by apply (no_leak_release y objs' hp). }
  assert (∀ y l, (is_Some (heap s !! l) → content y ≠ Some l →
                  ∃ b, owns s b l ∧ objs s !! b ≠ Some y)) as Hother.
  { intros y l Hl Hy. destruct (Hleak l Hl) as [b Hb]. exists b.
    split; [done|]. intros Hby. apply Hy. unfold owns in Hb.
    rewrite Hb in Hby. by injection Hby as <-. }
  unfold live_operands, fresh_storage in *.
  destruct o; simpl in *; repeat match goal with
    | Hf : Forall _ (_ :: _) |- _ => apply Forall_cons in Hf as [[? ?] Hf]
    end.
  - (* any() *)
    specialize (Hfresh this eq_refl). eexists. split; [by left|].
    intros l Hl. destruct (Hleak l Hl) as [b Hb]. exists b.
    unfold owns in *. simpl. rewrite lookup_insert_ne; [done|congruence].
  - (* any(const any&) *)
    specialize (Hfresh this eq_refl). rewrite any_copy_eq.
    match goal with Hx : objs s !! other = Some ?x |- _ =>
      rewrite Hx; destruct x as [[l|]] end.
    + destruct (holder_live s Hinv other l) as [[t v] Hl]; [done|]. rewrite Hl.
      destruct (copy_throws t v); [exists s; eauto|].
      eexists. split; [by left|]. intros l0 [h Hl0]. simpl in Hl0.
      unfold owns. simpl.
      apply lookup_insert_Some in Hl0 as [[<- _]|[? Hl0]].
      * exists this. by rewrite lookup_insert_eq.
      * destruct (Hleak l0) as [b Hb]; [by eauto|]. exists b.
        unfold owns in Hb. rewrite lookup_insert_ne; [done|congruence].
    + eexists. split; [by left|].
      intros l Hl. destruct (Hleak l Hl) as [b Hb]. exists b.
      unfold owns in *. simpl. rewrite lookup_insert_ne; [done|congruence].
  - (* any(any&&) *)
    specialize (Hfresh this eq_refl). rewrite any_move_eq.
    match goal with Hx : objs s !! other = Some ?x |- _ => rewrite Hx end.
    eexists. split; [by left|].
    intros l Hl. destruct (Hleak l Hl) as [b Hb]. unfold owns in *. simpl.
    destruct (decide (b = other)) as [->|Hne].
    + exists this. rewrite lookup_insert_eq. congruence.
    + exists b. rewrite !lookup_insert_ne; [done..|congruence].
  - (* any(ValueType&&) *)
    specialize (Hfresh this eq_refl). rewrite any_value_eq.
    destruct (storing_throws ValueType v); [exists s; eauto|].
    eexists. split; [by left|]. intros l0 [h Hl0]. simpl in Hl0.
    unfold owns. simpl.
    apply lookup_insert_Some in Hl0 as [[<- _]|[? Hl0]].
    + exists this. by rewrite lookup_insert_eq.
    + destruct (Hleak l0) as [b Hb]; [by eauto|]. exists b.
      unfold owns in Hb. rewrite lookup_insert_ne; [done|congruence].
  - (* ~any() *)
    match goal with Hx : objs s !! this = Some ?x |- _ =>
      rename Hx into Hthis; rename x into y end.
    rewrite any_dtor_eq', Hthis. apply Hrel.
    + intros l Hl. by apply (holder_live s Hinv this), (Hown this y).
    + intros l Hl Hy. destruct (Hother y l Hl Hy) as (b & Hb & Hby).
      exists b. rewrite lookup_delete_ne; [done|congruence].
  - (* operator=(const any&) *)
    match goal with
    | Hx : objs s !! this = Some ?x, Hr : objs s !! rhs = Some ?r |- _ =>
        rename Hx into Hthis; rename x into y;
        rename Hr into Hrhs; rename r into x
    end.
    rewrite (assign_copy_eq _ _ _ _ Hthis), any_copy_eq, Hrhs.
    destruct x as [[l|]].
    + destruct (holder_live s Hinv rhs l) as [[t v] Hl]; [done|]. rewrite Hl.
      destruct (copy_throws t v); [exists s; eauto|].
      simpl. rewrite lookup_insert_eq. apply Hrel.
      * intros ly Hy.
        destruct (holder_live s Hinv this ly (Hown _ _ _ Hthis Hy)) as [h Hh].
        rewrite lookup_insert_ne by congruence. eauto.
      * intros l0 [h Hl0] Hy.
        apply lookup_insert_Some in Hl0 as [[<- _]|[? Hl0]].
        -- exists this. by rewrite lookup_insert_eq.
        -- destruct (Hother y l0) as (b & Hb & Hby); [by eauto|done|].
           exists b. rewrite lookup_insert_ne; [done|congruence].
    + simpl. rewrite lookup_insert_eq. apply Hrel.
      * intros ly Hy. by apply (holder_live s Hinv this), (Hown this y).
      * intros l0 Hl0 Hy. destruct (Hother y l0 Hl0 Hy) as (b & Hb & Hby).
        exists b. rewrite lookup_insert_ne; [done|congruence].
  - (* operator=(any&&) *)
    match goal with
    | Hx : objs s !! this = Some ?x, Hr : objs s !! rhs = Some ?r |- _ =>
        rename Hx into Hthis; rename x into y;
        rename Hr into Hrhs; rename r into x
    end.
    rewrite (assign_move_eq _ _ _ _ Hthis), Hrhs. apply Hrel.
    + destruct (decide (this = rhs)); [done|].
      intros ly Hy. by apply (holder_live s Hinv this), (Hown this y).
    + intros l Hl Hy. destruct (Hleak l Hl) as [b Hb]. unfold owns in Hb.
      destruct (decide (b = rhs)) as [->|Hbr].
      * exists this. rewrite lookup_insert_eq. congruence.
      * exists b. rewrite !lookup_insert_ne; [done|done|].
        intros <-. apply Hy. rewrite decide_False by done.
        rewrite Hthis in Hb. by injection Hb as ->.
  - (* operator=(ValueType&&) *)
    match goal with Hx : objs s !! this = Some ?x |- _ =>
      rename Hx into Hthis; rename x into y end.
    rewrite (assign_value_eq _ _ _ _ _ Hthis).
    destruct (storing_throws ValueType v); [exists s; eauto|].
    simpl. apply Hrel.
    + intros ly Hy.
      destruct (holder_live s Hinv this ly (Hown _ _ _ Hthis Hy)) as [h Hh].
      rewrite lookup_insert_ne by congruence. eauto.
    + intros l0 [h Hl0] Hy.
      apply lookup_insert_Some in Hl0 as [[<- _]|[? Hl0]].
      * exists this. by rewrite lookup_insert_eq.
      * destruct (Hother y l0) as (b & Hb & Hby); [by eauto|done|].
        exists b. rewrite lookup_insert_ne; [done|congruence].
  - (* reset() *)
    match goal with Hx : objs s !! this = Some ?x |- _ =>
      rename Hx into Hthis; rename x into y end.
    rewrite reset_eq, Hthis. apply Hrel.
    + intros l Hl. by apply (holder_live s Hinv this), (Hown this y).
    + intros l Hl Hy. destruct (Hother y l Hl Hy) as (b & Hb & Hby).
      exists b. rewrite lookup_insert_ne; [done|congruence].
  - (* swap(any&) *)
    by apply no_leak_swap.
  - (* has_value() *)
    match goal with Hx : objs s !! this = Some ?x |- _ =>
      rename Hx into Hthis end.
    exists s. split; [|done]. left. unfold_m. by rewrite has_value_eq, Hthis.
  - (* type() *)
    match goal with Hx : objs s !! this = Some ?x |- _ =>
      rename Hx into Hthis; rename x into y end.
    exists s. split; [|done]. left. unfold_m. rewrite type_eq, Hthis.
    destruct y as [[l|]]; [|done].
    by destruct (holder_live s Hinv this l Hthis) as [h ->].
  - (* any_cast<T>(any* ) *)
    exists s. split; [|done]. left. unfold_m.
    destruct operand as [a|]; [|done].
    simpl in Hlive. apply Forall_cons in Hlive as [[y Ha] _].
    rewrite any_cast_ptr_eq, type_eq, Ha. destruct y as [[l|]]; [|done].
    destruct (holder_live s Hinv a l Ha) as [h ->]. by destruct (decide _).
  - (* any_cast<T>(any&) *)
    destruct (any_cast_final_state form T operand s) as (s' & Hout & Hs');
      [done|by eauto|].
    exists s'. split; [done|].
    destruct Hs' as [->|(l & h & h' & Hl & ->)]; [done|].
    intros l0 [h0 Hl0]. simpl in Hl0. unfold owns. simpl. apply Hleak.
    apply lookup_insert_Some in Hl0 as [[<- _]|[_ Hl0]]; eauto.
  - (* swap(any&, any&) *)
    by apply no_leak_swap.
Qed.

(** ** [ConfigManager] *)

Lemma assign_value_runs (this : addr) (ValueType : cpp_type)
    (v : value (ty_base ValueType)) (y : any) (s : state) :
  rep_inv s → objs s !! this = Some y →
  storing_throws ValueType v = None →
  ∃ s' l',
    assign_value this ValueType v s = Ret () s'
    ∧ rep_inv s'
    ∧ objs s' = <[this := Any (Some l')]> (objs s)
    ∧ heap s' !! l' = Some (holder (ty_base ValueType) v)
    ∧ (∀ b l, b ≠ this → owns s b l → heap s' !! l = heap s !! l).
Proof.
  intros Hinv Hthis Hok.
  destruct (step_assign_value this ValueType v s Hinv)
    as (s0 & Hout & Hinv' & _); [by eauto|].
  assert (∀ ly, content y = Some ly → owns s this ly) as Hy.
  { intros ly Hly. unfold owns. destruct y as [c]. simpl in Hly. by subst c. }
  pose proof (fresh_loc_None s) as Hfresh.
  rewrite (assign_value_eq _ _ _ _ _ Hthis), Hok in *. simpl in *.
  set (l' := fresh (dom (heap s))) in *.
  destruct (release_old_runs y (<[this := Any (Some l')]> (objs s))
              (<[l' := holder (ty_base ValueType) v]> (heap s))) as [s' Hs'].
  { intros ly Hly. destruct (holder_live s Hinv this ly (Hy ly Hly)) as [h Hh].
    rewrite lookup_insert_ne by congruence. eauto. }
  rewrite Hs' in Hout. destruct Hout as [[= <-]|[e [=]]].
  destruct (release_old_frees _ _ _ _ Hs') as (Hobjs & Hfreed & Hkept).
  assert (content y ≠ Some l') as Hyl'.
  { intros Hly. destruct (holder_live s Hinv this l' (Hy l' Hly)).
    congruence. }
  exists s', l'. split_and!; try done.
  - by rewrite (Hkept l' Hyl'), lookup_insert_eq.
  - intros b l Hb Hl. destruct (holder_live s Hinv b l Hl) as [h Hh].
    rewrite Hkept; [by rewrite lookup_insert_ne by congruence|].
    intros Hly. apply Hb. by apply (holder_unique s Hinv b this l); [|apply Hy].
Qed.

Lemma any_cast_lvalue_owner (T : cpp_type) (a : addr) (l : loc)
    (v : value (ty_base T)) (s : state) :
  owns s a l → heap s !! l = Some (holder (ty_base T) v) →
  any_cast from_lvalue T a s =
    if is_reference_v T then Ret (by_ref l) s
    else match copy_throws (ty_base T) v with
         | None => Ret (by_value v) s
         | Some e => Throw (thrown e) s
         end.
Proof.
  intros Ha Hl.
  destruct (owner_observes _ _ _ _ _ Ha Hl) as (_ & _ & Hptr & Hld).
  unfold any_cast. unfold_m.
  change (remove_cv_t (remove_reference_t T)) with (plain (ty_base T)).
  rewrite Hptr. destruct (is_reference_v T); [done|].
  unfold load_value, copy_construct. rewrite Hld. unfold_m.
  by destruct (copy_throws _ _).
Qed.


Lemma subscript_present (key : string) (c : ConfigManager) (a : addr)
    (s : state) :
  config c !! key = Some a → subscript key c s = (c, a, s).
Proof. unfold subscript. by intros ->. Qed.

Lemma subscript_absent (key : string) (c : ConfigManager) (s : state) :
  config c !! key = None →
  subscript key c s =
    ({| config := <[key := fresh (dom (objs s))]> (config c) |},
     fresh (dom (objs s)),
     State (<[fresh (dom (objs s)) := Any None]> (objs s)) (heap s)).
Proof. unfold subscript. by intros ->. Qed.

Lemma cfg_inv_new_key (key : string) (c : ConfigManager) (s : state) :
  cfg_inv c s → config c !! key = None →
  cfg_inv {| config := <[key := fresh (dom (objs s))]> (config c) |}
          (State (<[fresh (dom (objs s)) := Any None]> (objs s)) (heap s)).
Proof.
  intros [Hlive Hinj] Hkey. pose proof (fresh_addr_None s) as Hfresh.
  split; simpl.
  - intros k a Hk. apply lookup_insert_Some in Hk as [[<- <-]|[? Hk]].
    + rewrite lookup_insert_eq. eauto.
    + destruct (Hlive k a Hk) as [x Hx].
      rewrite lookup_insert_ne by congruence. eauto.
  - intros k1 k2 a Hk1 Hk2.
    apply lookup_insert_Some in Hk1 as [[<- <-]|[? Hk1]];
      apply lookup_insert_Some in Hk2 as [[<- ?]|[? Hk2]]; try done.
    + destruct (Hlive k2 _ Hk2). congruence.
    + subst a. destruct (Hlive k1 _ Hk1). congruence.
    + by apply (Hinj k1 k2 a).
Qed.

Lemma cfg_inv_same_dom (c : ConfigManager) (s s' : state) :
  cfg_inv c s → (∀ a, is_Some (objs s !! a) → is_Some (objs s' !! a)) →
  cfg_inv c s'.
Proof. intros [Hlive Hinj] Hdom. split; [|done]. eauto. Qed.

(** What [operator[]] leaves behind, for either case of the key. *)
Lemma subscript_spec (key : string) (c : ConfigManager) (s : state) :
  rep_inv s → cfg_inv c s →
  ∃ c' a s1 y,
    subscript key c s = (c', a, s1)
    ∧ rep_inv s1 ∧ cfg_inv c' s1
    ∧ config c' !! key = Some a ∧ objs s1 !! a = Some y
    ∧ heap s1 = heap s
    ∧ (∀ k' a', k' ≠ key → config c !! k' = Some a' →
         config c' !! k' = Some a' ∧ a' ≠ a ∧ objs s1 !! a' = objs s !! a')
    ∧ (∀ k', k' ≠ key → config c !! k' = None → config c' !! k' = None)
    ∧ (∀ a' l, owns s1 a' l ↔ owns s a' l)
    ∧ (is_Some (config c !! key) → c' = c ∧ s1 = s)
    ∧ (config c !! key = None → y = Any None).
Proof.
  intros Hinv Hcfg. destruct (config c !! key) as [a|] eqn:Hkey.
  - destruct (proj1 Hcfg key a Hkey) as [y Hy].
    exists c, a, s, y. rewrite (subscript_present _ _ _ _ Hkey).
    split_and!; try done.
    intros k' a' Hk' Ha'. split_and!; [done| |done].
    intros ->. by apply Hk', (proj2 Hcfg k' key a).
  - pose proof (fresh_addr_None s) as Hfresh.
    rewrite (subscript_absent _ _ _ Hkey).
    eexists _, _, _, (Any None). split; [done|].
    split_and!; simpl.
    + by apply rep_inv_set_empty.
    + by apply cfg_inv_new_key.
    + by rewrite lookup_insert_eq.
    + by rewrite lookup_insert_eq.
    + done.
    + intros k' a' Hk' Ha'. destruct (proj1 Hcfg k' a' Ha') as [x Hx].
      assert (a' ≠ fresh (dom (objs s))) by congruence.
      by rewrite !lookup_insert_ne.
    + intros k' Hk' Hnone. by rewrite lookup_insert_ne.
    + intros a' l. unfold owns. simpl.
      destruct (decide (a' = fresh (dom (objs s)))) as [->|?].
      * rewrite lookup_insert_eq, Hfresh. split; intros [=].
      * by rewrite lookup_insert_ne.
    + by intros [? ?].
    + done.
Qed.

Lemma set_unfold (T : cpp_type) (key : string) (v : value (ty_base T))
    (c c' : ConfigManager) (a : addr) (s s1 : state) :
  subscript key c s = (c', a, s1) →
  ConfigManager_set T key v c s = (c', assign_value a T v s1).
Proof. unfold ConfigManager_set. by intros ->. Qed.

(** X10. [set] followed by [get] on the same key: when storing the value
    does not throw, [set<T>(key, v)] returns normally whether or not the
    key was present, and then [get<U>(key)] for every [U] that decays to the
    stored type gives a reference to the stored value when [U] is a
    reference type and otherwise a copy equal to [v] (or the exception of
    its copy constructor); [get_or_default<U>] gives the same and not the
    default.  The invariants of the container and of the manager hold
    afterwards. *)
Theorem config_set_then_get (T : cpp_type) (key : string)
    (v : value (ty_base T)) (c : ConfigManager) (s : state) :
  rep_inv s → cfg_inv c s → storing_throws T v = None →
  ∃ c' s' l,
    ConfigManager_set T key v c s = (c', Ret () s')
    ∧ rep_inv s' ∧ cfg_inv c' s'
    ∧ load (ty_base T) l s' = Some v
    ∧ ∀ cq vq rk,
        let U := QT (ty_base T) cq vq rk in
        let stored : outcome (cast_result U) :=
          if is_reference_v U then Ret (@by_ref _ U l) s'
          else match copy_throws (ty_base T) v with
               | None => Ret (@by_value _ U v) s'
               | Some e => Throw (thrown e) s'
               end in
        ConfigManager_get U key c' s' = completed stored
        ∧ ∀ d, ConfigManager_get_or_default U key d c' s' =
               match stored with
               | Ret r s0 => Ret (from_config r) s0
               | Throw e s0 => Throw e s0
               | Undef => Undef
               end.
Proof.
  intros Hinv Hcfg Hok.
  destruct (subscript_spec key c s Hinv Hcfg)
    as (c' & a & s1 & y & Hsub & Hinv1 & Hcfg1 & Hkey & Ha & _).
  destruct (assign_value_runs a T v y s1 Hinv1 Ha Hok)
    as (s' & l & Hrun & Hinv' & Hobjs & Hl & _).
  assert (owns s' a l) as Hown.
  { unfold owns. by rewrite Hobjs, lookup_insert_eq. }
  destruct (owner_observes _ _ _ _ _ Hown Hl) as (_ & Hty & _ & Hld).
  exists c', s', l. split_and!; [|done| |done|].
  - by rewrite (set_unfold _ _ _ _ _ _ _ _ Hsub), Hrun.
  - apply (cfg_inv_same_dom c' s1 s'); [done|].
    intros b [x Hb]. rewrite Hobjs.
    destruct (decide (a = b)) as [->|?];
      [rewrite lookup_insert_eq|rewrite lookup_insert_ne by done]; eauto.
  - intros cq vq rk U stored.
    assert (any_cast from_lvalue U a s' = stored) as Hcast.
    { by apply (any_cast_lvalue_owner U a l v s'). }
    split.
    + unfold ConfigManager_get. by rewrite Hkey, Hcast.
    + intros d. unfold ConfigManager_get_or_default. rewrite Hkey. unfold_m.
      rewrite Hty. rewrite decide_False by (intros Hne; by apply Hne).
      rewrite Hcast. by destruct stored.
Qed.


Lemma return_default_eq (T : cpp_type) (d : value (ty_base T)) (s : state) :
  return_default T d s =
    if is_reference_v T then Ret (from_default d) s
    else match copy_throws (ty_base T) d with
         | None => Ret (from_default d) s
         | Some e => Throw (thrown e) s
         end.
Proof.
  unfold return_default, copy_construct. unfold_m.
  destruct (is_reference_v T); [done|]. by destruct (copy_throws _ _).
Qed.

(** X12. [get_or_default] against [get]: on a manager whose entries are
    live, where [get<T>(key)] fails with [runtime_error] (no such key) or
    with [bad_any_cast] (an entry of another type, or an empty one),
    [get_or_default<T>] returns the default; where [get] returns or lets an
    exception of the value's copy constructor through, [get_or_default] does
    the same.  So [get_or_default] never throws [bad_any_cast], and it
    never changes the state. *)
Theorem get_or_default_covers_get (T : cpp_type) (key : string)
    (d : value (ty_base T)) (c : ConfigManager) (s : state) :
  rep_inv s → cfg_inv c s →
  match ConfigManager_get T key c s with
  | runtime_error _ _ | completed (Throw bad_any_cast _) =>
      ConfigManager_get_or_default T key d c s = return_default T d s
  | completed (Ret r _) =>
      ConfigManager_get_or_default T key d c s = Ret (from_config r) s
  | completed (Throw (thrown e) _) =>
      ConfigManager_get_or_default T key d c s = Throw (thrown e) s
  | completed Undef => False
  end
  ∧ (∀ s', ConfigManager_get_or_default T key d c s ≠ Throw bad_any_cast s')
  ∧ (∀ r s', ConfigManager_get_or_default T key d c s = Ret r s' → s' = s).
Proof.
  intros Hinv Hcfg.
  assert (∀ s', return_default T d s ≠ Throw bad_any_cast s') as Hdef1.
  { intros s'. rewrite return_default_eq. by repeat case_match. }
  assert (∀ r s', return_default T d s = Ret r s' → s' = s) as Hdef2.
  { intros r s'. rewrite return_default_eq. repeat case_match; congruence. }
  unfold ConfigManager_get, ConfigManager_get_or_default.
  destruct (config c !! key) as [a|] eqn:Hkey; [|done].
  destruct (proj1 Hcfg key a Hkey) as [[ca] Ha].
  unfold_m. rewrite type_eq, Ha. destruct ca as [l|].
  - destruct (holder_live s Hinv a l Ha) as [[t v] Hl]. rewrite Hl. simpl.
    destruct (decide (typeid_of t ≠ typeid T)) as [Hti|Hti].
    + unfold any_cast. unfold_m. rewrite any_cast_ptr_eq, type_eq, Ha, Hl.
      simpl. rewrite decide_True by done. by split_and!.
    + assert (t = ty_base T) as ->.
      { destruct (decide (t = ty_base T)) as [|Hn]; [done|].
        exfalso. apply Hti. unfold typeid. by intros [= ?]. }
      rewrite (any_cast_lvalue_owner T a l v s Ha Hl).
      destruct (is_reference_v T); [split_and!; [done|congruence|congruence]|].
      destruct (copy_throws (ty_base T) v);
        split_and!; first [done|congruence].
  - simpl. unfold any_cast. unfold_m. rewrite any_cast_ptr_eq, type_eq, Ha.
    simpl. by split_and!.
Qed.

(** X13. [set] is not atomic for a new key: when storing the value throws,
    an existing entry and the state are left as they were, but for a key
    that was absent [operator[]] has already inserted an empty [any].  The
    key is then present without a value: [get] on it fails with
    [bad_any_cast], not with Key not found, and [get_or_default] returns
    the default; no holder has been allocated. *)
Theorem config_set_failure (T : cpp_type) (key : string)
    (v : value (ty_base T)) (e : user_exn) (c : ConfigManager) (s : state) :
  rep_inv s → cfg_inv c s → storing_throws T v = Some e →
  (is_Some (config c !! key) →
     ConfigManager_set T key v c s = (c, Throw (thrown e) s))
  ∧ (config c !! key = None →
     ∃ c' s' a,
       ConfigManager_set T key v c s = (c', Throw (thrown e) s')
       ∧ config c' !! key = Some a
       ∧ objs s !! a = None
       ∧ has_value a s' = Ret false s'
       ∧ heap s' = heap s
       ∧ rep_inv s' ∧ cfg_inv c' s'
       ∧ (∀ U, ConfigManager_get U key c' s'
               = completed (Throw bad_any_cast s'))
       ∧ (∀ U d, ConfigManager_get_or_default U key d c' s'
                 = return_default U d s')).
Proof.
  intros Hinv Hcfg Hthrows. split.
  - intros [a Hkey]. destruct (proj1 Hcfg key a Hkey) as [y Hy].
    rewrite (set_unfold _ _ _ _ _ _ _ _ (subscript_present _ _ _ s Hkey)).
    by rewrite (assign_value_eq _ _ _ _ _ Hy), Hthrows.
  - intros Hkey. pose proof (fresh_addr_None s) as Hfresh.
    set (a := fresh (dom (objs s))) in *.
    set (s' := State (<[a := Any None]> (objs s)) (heap s)).
    assert (objs s' !! a = Some (Any None)) as Ha.
    { simpl. by rewrite lookup_insert_eq. }
    exists {| config := <[key := a]> (config c) |}, s', a.
    split_and!.
    + rewrite (set_unfold _ _ _ _ _ _ _ _ (subscript_absent _ _ s Hkey)).
      fold a. fold s'. by rewrite (assign_value_eq _ _ _ _ _ Ha), Hthrows.
    + simpl. by rewrite lookup_insert_eq.
    + done.
    + by rewrite has_value_eq, Ha.
    + done.
    + by apply rep_inv_set_empty.
    + by apply cfg_inv_new_key.
    + intros U. unfold ConfigManager_get. simpl. rewrite lookup_insert_eq.
      unfold any_cast. unfold_m. by rewrite any_cast_ptr_eq, type_eq, Ha.
    + intros U d. unfold ConfigManager_get_or_default. simpl.
      rewrite lookup_insert_eq. unfold_m. by rewrite type_eq, Ha.
Qed.

(** ** [PolymorphicContainer] *)

Lemma relocate_cons (a b : addr) (x : any) (old new : list positive)
    (s : state) :
  objs s !! a = Some x → a ≠ b →
  relocate (a :: old) (b :: new) s =
    relocate old new
      (State (delete a (<[b := x]> (<[a := Any None]> (objs s)))) (heap s)).
Proof.
  intros Ha Hne. simpl. unfold_m. rewrite any_move_eq, Ha.
  rewrite any_dtor_eq. simpl.
  by rewrite lookup_insert_ne, lookup_insert_eq by done.
Qed.

Lemma relocate_spec (old : list positive) :
  ∀ (new : list positive) (s : state),
    length old = length new → NoDup old → NoDup new →
    Forall (λ a, is_Some (objs s !! a)) old →
    (∀ b, b ∈ new → objs s !! b = None) →
    rep_inv s →
    ∃ s', relocate old new s = Ret () s'
          ∧ heap s' = heap s ∧ rep_inv s'
          ∧ (∀ i a b, old !! i = Some a → new !! i = Some b →
               objs s' !! b = objs s !! a)
          ∧ (∀ c, c ∉ old → c ∉ new → objs s' !! c = objs s !! c).
Proof.
  induction old as [|a old IH]; intros new s Hlen Hold Hnew Hlive Hfresh Hinv.
  { destruct new; [|done]. exists s. by split_and!. }
  destruct new as [|b new]; [done|].
  apply NoDup_cons in Hold as [Ha_old Hold].
  apply NoDup_cons in Hnew as [Hb_new Hnew].
  apply Forall_cons in Hlive as [[x Ha] Hlive].
  assert (objs s !! b = None) as Hb by (apply Hfresh; left).
  assert (a ≠ b) as Hab by congruence.
  rewrite (relocate_cons a b x old new s Ha Hab).
  set (s1 := State (delete a (<[b := x]> (<[a := Any None]> (objs s))))
                   (heap s)).
  assert (∀ c, c ≠ a → c ≠ b → objs s1 !! c = objs s !! c) as Hs1.
  { intros c ? ?. simpl. by rewrite lookup_delete_ne, !lookup_insert_ne. }
  assert (∀ c, c ∈ old → c ≠ a ∧ c ≠ b) as Hold_ne.
  { intros c Hc. split; [by intros ->|].
    intros ->. rewrite Forall_forall in Hlive.
    destruct (Hlive b Hc). congruence. }
  assert (∀ c, c ∈ new → c ≠ a ∧ c ≠ b) as Hnew_ne.
  { intros c Hc. split; [|by intros ->].
    intros ->. specialize (Hfresh a). rewrite Hfresh in Ha; [done|by right]. }
  destruct (IH new s1) as (s' & Hrun & Hheap & Hinv' & Hmoved & Hrest).
  - simpl in Hlen. congruence.
  - done.
  - done.
  - rewrite Forall_forall in *. intros c Hc.
    destruct (Hold_ne c Hc). rewrite Hs1 by done. by apply Hlive.
  - intros c Hc. destruct (Hnew_ne c Hc). rewrite Hs1 by done.
    apply Hfresh. by right.
  - pose proof (rep_inv_end_lifetime a _ (rep_inv_transfer b a x s Hinv Ha))
      as Hinv1.
    exact Hinv1.
  - exists s'. split_and!; [done..| |].
    + intros [|i] a' b' Ha' Hb'; simpl in *.
      * injection Ha' as <-. injection Hb' as <-.
        rewrite Hrest; [|by intros [_ ?]%Hold_ne|done].
        simpl. by rewrite lookup_delete_ne, lookup_insert_eq by done.
      * rewrite (Hmoved i a' b' Ha' Hb').
        destruct (Hold_ne a') as [? ?]; [by eapply list_elem_of_lookup_2|].
        by apply Hs1.
    + intros c Hc_old Hc_new.
      apply not_elem_of_cons in Hc_old as [? ?].
      apply not_elem_of_cons in Hc_new as [? ?].
      rewrite Hrest by done. by apply Hs1.
Qed.

Lemma any_cast_ptr_frame (a b : addr) (s s' : state) :
  objs s' !! b = objs s !! a →
  (∀ l, owns s a l → heap s' !! l = heap s !! l) →
  ∀ T r, any_cast_ptr T (Some a) s = Ret r s →
         any_cast_ptr T (Some b) s' = Ret r s'
         ∧ ∀ p t, r = Some p → load t p s' = load t p s.
Proof.
  intros Hobj Hheap T r. unfold owns in Hheap.
  rewrite !any_cast_ptr_eq, !type_eq, Hobj.
  destruct (objs s !! a) as [[[l|]]|]; [| |done].
  - rewrite (Hheap l eq_refl). destruct (heap s !! l) as [h|]; [|done].
    destruct (decide _); intros [= <-]; (split; [done|]).
    + by intros p t [=].
    + intros p t [= <-]. unfold load. by rewrite Hheap.
  - destruct (decide _); intros [= <-]; (split; [done|]); by intros p t [=].
Qed.

Lemma any_copy_spec (this other : addr) (x : any) (s : state) :
  rep_inv s → objs s !! other = Some x →
  (∀ l t v, content x = Some l → heap s !! l = Some (holder t v) →
            copy_throws t v = None) →
  ∃ s0 c0,
    any_copy this other s = Ret () s0
    ∧ rep_inv s0
    ∧ objs s0 = <[this := Any c0]> (objs s)
    ∧ (∀ l, is_Some (heap s !! l) → heap s0 !! l = heap s !! l)
    ∧ match content x with
      | None => c0 = None
      | Some l => ∃ l' h, c0 = Some l' ∧ heap s !! l = Some h
                          ∧ heap s !! l' = None ∧ heap s0 !! l' = Some h
      end.
Proof.
  intros Hinv Hother Hok. pose proof (fresh_loc_None s) as Hfresh.
  rewrite any_copy_eq, Hother. destruct x as [[l|]]; simpl in *.
  - destruct (holder_live s Hinv other l Hother) as [[t v] Hl].
    rewrite Hl, (Hok l t v eq_refl Hl).
    eexists _, (Some _). split; [done|]. simpl. split_and!.
    + by apply rep_inv_set_fresh.
    + done.
    + intros l0 [h Hl0]. rewrite lookup_insert_ne; [done|congruence].
    + eexists _, _. split_and!; [done..|by rewrite lookup_insert_eq].
  - eexists _, None. split; [done|]. simpl. split_and!; [|done..].
    by apply rep_inv_set_empty.
Qed.

Lemma push_back_spec (r : bool) (item : addr) (x : any)
    (c : PolymorphicContainer) (s : state) :
  rep_inv s → pc_inv c s → objs s !! item = Some x →
  (∀ l t v, content x = Some l → heap s !! l = Some (holder t v) →
            copy_throws t v = None) →
  ∃ c' s' slot,
    push_back r item c s = Ret c' s'
    ∧ rep_inv s' ∧ pc_inv c' s'
    ∧ length (items c') = S (length (items c))
    ∧ items c' !! length (items c) = Some slot
    ∧ (∀ i a, items c !! i = Some a →
         ∃ b, items c' !! i = Some b ∧ objs s' !! b = objs s !! a)
    ∧ (∀ l, is_Some (heap s !! l) → heap s' !! l = heap s !! l)
    ∧ match content x with
      | None => objs s' !! slot = Some (Any None)
      | Some l => ∃ l' h, heap s !! l = Some h ∧ heap s !! l' = None
                          ∧ objs s' !! slot = Some (Any (Some l'))
                          ∧ heap s' !! l' = Some h
      end.
Proof.
  intros Hinv [Hnodup Hlive] Hitem Hok.
  pose proof (fresh_addr_None s) as Hfresh.
  set (slot := fresh (dom (objs s))) in *.
  destruct (any_copy_spec slot item x s Hinv Hitem Hok)
    as (s0 & c0 & Hcopy & Hinv0 & Hobjs0 & Hheap0 & Hc0).
  rewrite Forall_forall in Hlive.
  assert (slot ∉ items c) as Hslot.
  { intros Hin. destruct (Hlive slot Hin). congruence. }
  assert (∀ a, a ∈ items c → objs s0 !! a = objs s !! a) as Hsame.
  { intros a Ha. rewrite Hobjs0, lookup_insert_ne; [done|].
    intros <-. done. }
  assert (objs s0 !! slot = Some (Any c0)) as Hslot0.
  { by rewrite Hobjs0, lookup_insert_eq. }
  unfold push_back, fresh_addr. unfold_m. fold slot. rewrite Hcopy.
  destruct r.
  - unfold fresh_addrs.
    set (buffer := fresh_list (length (items c)) (dom (objs s0))).
    assert (length (items c) = length buffer) as Hlen.
    { unfold buffer. by rewrite length_fresh_list. }
    assert (∀ b, b ∈ buffer → objs s0 !! b = None) as Hbuf.
    { intros b Hb. apply not_elem_of_dom.
      by apply (fresh_list_is_fresh (length (items c))). }
    assert (slot ∉ buffer) as Hslotb.
    { intros Hin. rewrite (Hbuf slot Hin) in Hslot0. done. }
    destruct (relocate_spec (items c) buffer s0)
      as (s' & Hrun & Hheap & Hinv' & Hmoved & Hrest);
      [done|done|apply NoDup_fresh_list| |done|done|].
    { rewrite Forall_forall. intros a Ha. rewrite Hsame by done.
      by apply Hlive. }
    rewrite Hrun.
    assert (objs s' !! slot = Some (Any c0)) as Hslot'.
    { by rewrite Hrest. }
    exists {| items := buffer ++ [slot] |}, s', slot.
    split; [done|]. simpl. split_and!.
    + done.
    + split; simpl.
      * apply NoDup_app. split_and!; [apply NoDup_fresh_list| |].
        -- intros b Hb ->%list_elem_of_singleton. done.
        -- apply NoDup_singleton.
      * rewrite Forall_forall. intros b Hb.
        apply elem_of_app in Hb as [Hb| ->%list_elem_of_singleton]; [|eauto].
        apply list_elem_of_lookup in Hb as [i Hi].
        destruct (lookup_lt_is_Some_2 (items c) i) as [a Ha].
        { rewrite Hlen. by eapply lookup_lt_Some. }
        rewrite (Hmoved i a b Ha Hi), Hsame;
          [apply Hlive|]; by eapply list_elem_of_lookup_2.
    + rewrite length_app. simpl. lia.
    + rewrite Hlen. by apply list_lookup_middle.
    + intros i a Ha.
      destruct (lookup_lt_is_Some_2 buffer i) as [b Hb].
      { rewrite <- Hlen. by eapply lookup_lt_Some. }
      exists b. split; [by apply lookup_app_l_Some|].
      rewrite (Hmoved i a b Ha Hb). apply Hsame.
      by eapply list_elem_of_lookup_2.
    + intros l Hl. rewrite Hheap. by apply Hheap0.
    + destruct (content x) as [l|].
      * destruct Hc0 as (l' & h & -> & ? & ? & ?).
        exists l', h. split_and!; [done..|by rewrite Hheap].
      * by subst c0.
  - exists {| items := items c ++ [slot] |}, s0, slot.
    split; [done|]. simpl. split_and!.
    + done.
    + split; simpl.
      * apply NoDup_app. split_and!; [done| |apply NoDup_singleton].
        intros b Hb ->%list_elem_of_singleton. done.
      * rewrite Forall_forall. intros b Hb.
        apply elem_of_app in Hb as [Hb| ->%list_elem_of_singleton]; [|eauto].
        rewrite Hsame by done. by apply Hlive.
    + rewrite length_app. simpl. lia.
    + by apply list_lookup_middle.
    + intros i a Ha. exists a. split; [by apply lookup_app_l_Some|].
      apply Hsame. by eapply list_elem_of_lookup_2.
    + done.
    + destruct (content x) as [l|].
      * destruct Hc0 as (l' & h & -> & ? & ? & ?). by exists l', h.
      * by subst c0.
Qed.


Lemma container_get_in_range (T : cpp_type) (i : nat) (a : addr)
    (c : PolymorphicContainer) (s : state) :
  items c !! i = Some a →
  PolymorphicContainer_get T i c s = any_cast_ptr T (Some a) s.
Proof.
  intros Ha. unfold PolymorphicContainer_get.
  apply lookup_lt_Some in Ha as Hlt.
  rewrite decide_False by lia. by rewrite Ha.
Qed.

(** X14. [add] appends a copy and disturbs nothing, whether or not the
    vector reallocates: it returns normally when the copy of the held value
    does not throw, the size grows by one, [get<T>(i)] for every old index
    gives the very pointer it gave before, with the same value behind it,
    and [get<T>] at the new last index gives what [any_cast<T>] gives on
    [item], in storage that was not allocated before. *)
Theorem container_add_appends (r : bool) (item : addr) (x : any)
    (c : PolymorphicContainer) (s : state) :
  rep_inv s → pc_inv c s → objs s !! item = Some x →
  (∀ l t v, content x = Some l → heap s !! l = Some (holder t v) →
            copy_throws t v = None) →
  ∃ c' s',
    PolymorphicContainer_add r item c s = Ret c' s'
    ∧ rep_inv s' ∧ pc_inv c' s'
    ∧ PolymorphicContainer_size c' = S (PolymorphicContainer_size c)
    ∧ (∀ T i res,
         i < PolymorphicContainer_size c →
         PolymorphicContainer_get T i c s = Ret res s →
         PolymorphicContainer_get T i c' s' = Ret res s'
         ∧ ∀ p t, res = Some p → load t p s' = load t p s)
    ∧ (∀ T res,
         any_cast_ptr T (Some item) s = Ret res s →
         match res with
         | None =>
             PolymorphicContainer_get T (PolymorphicContainer_size c) c' s'
             = Ret None s'
         | Some p =>
             ∃ p',
               PolymorphicContainer_get T (PolymorphicContainer_size c) c' s'
               = Ret (Some p') s'
               ∧ heap s !! p' = None
               ∧ ∀ t, load t p' s' = load t p s
         end).
Proof.
  intros Hinv Hpc Hitem Hok.
  destruct (push_back_spec r item x c s Hinv Hpc Hitem Hok)
    as (c' & s' & slot & Hrun & Hinv' & Hpc' & Hlen & Hlast & Hold & Hheap
        & Hslot).
  exists c', s'. unfold PolymorphicContainer_add, PolymorphicContainer_size.
  split_and!; [done..| |].
  - intros T i res Hi.
    destruct (lookup_lt_is_Some_2 (items c) i Hi) as [a Ha].
    destruct (Hold i a Ha) as (b & Hb & Hobj).
    rewrite (container_get_in_range T i a c s Ha).
    rewrite (container_get_in_range T i b c' s' Hb).
    apply any_cast_ptr_frame; [done|].
    intros l Hl. apply Hheap. by apply (holder_live s Hinv a l).
  - intros T res. rewrite (container_get_in_range T _ slot c' s' Hlast).
    rewrite !any_cast_ptr_eq, !type_eq, Hitem.
    destruct x as [[l|]]; simpl in Hslot.
    + destruct Hslot as (l' & h & Hl & Hfresh & Hs & Hl').
      rewrite Hs, Hl, Hl'. destruct (decide _); intros [= <-]; [done|].
      exists l'. split_and!; [done..|].
      intros t. unfold load. rewrite Hl'. by rewrite Hl.
    + rewrite Hslot. by intros [= <-].
Qed.


(** X16. [add] gives the strong guarantee: when the copy constructor of
    the value held by [item] throws, that exception comes out of [add] and
    the state is the one before the call, with or without reallocation; no
    element has been moved and no object or holder is left behind. *)
Theorem container_add_failure (r : bool) (item : addr) (l : loc) (t : tid)
    (v : value t) (e : user_exn) (c : PolymorphicContainer) (s : state) :
  owns s item l → heap s !! l = Some (holder t v) →
  copy_throws t v = Some e →
  PolymorphicContainer_add r item c s = Throw (thrown e) s.
Proof.
  intros Hitem Hl Hthrows.
  unfold PolymorphicContainer_add, push_back, fresh_addr. unfold_m.
  by rewrite any_copy_eq, Hitem, Hl, Hthrows.
Qed.

End any_spec.

(** ** The theorems at work on [Run.s_four] *)

Section runs.
Existing Instance Demo.types.
Import Demo Run.

Ltac split_lookups :=
  repeat match goal with
  | Hx : <[_ := _]> _ !! _ = Some _ |- _ =>
      apply lookup_insert_Some in Hx; destruct Hx as [[? ?]|[? ?]]
  | Hx : ∅ !! _ = Some _ |- _ => by rewrite lookup_empty in Hx
  end; simplify_eq.

Lemma s_four_rep_inv : rep_inv s_four.
Proof.
  split.
  - intros a l Ho. unfold owns, s_four in *. simpl in *.
    split_lookups; by eexists.
  - intros a1 a2 l Ho1 Ho2. unfold owns, s_four in *. simpl in *.
    split_lookups; done.
Qed.

Example run_scenario_int :
  scenario_int s_init
  = Ret (typeid_of Int, None, Some 1%positive, false)
        (State (<[1%positive := Any None]> ∅) ∅).
Proof. vm_compute. reflexivity. Qed.

Example run_scenario_copy :
  ∃ s', scenario_copy s_init
        = Ret (by_value ("changed"%string : value (ty_base std_string)),
               by_value (hello : value (ty_base std_string))) s'.
Proof. eexists. vm_compute. reflexivity. Qed.

Example run_scenario_move :
  ∃ s', scenario_move s_four = Ret (false, false, typeid_of String) s'
        ∧ heap s' !! 10%positive = None
        ∧ load String 20%positive s' = Some hello.
Proof.
  eexists. split; [vm_compute; reflexivity|].
  split; reflexivity.
Qed.

Example run_bad_any_cast :
  any_cast from_lvalue int 2%positive s_four = Throw bad_any_cast s_four
  ∧ what bad_any_cast = Some "bad any_cast"%string
  ∧ any_cast_ptr int (Some 4%positive) s_four = Ret None s_four
  ∧ any_cast_ptr int None s_four = Ret None s_four.
Proof. split_and!; vm_compute; reflexivity. Qed.

Example run_fragile_copy :
  any_copy 5%positive 3%positive s_four
  = Throw (thrown "copy failed"%string) s_four.
Proof. vm_compute. reflexivity. Qed.

Lemma any_cast_ptr_roundtrip_witness :
  storing_throws int 42%Z = None
  ∧ ∃ s' p,
      any_value 1%positive int 42%Z s_init = Ret () s'
      ∧ any_cast_ptr int (Some 1%positive) s' = Ret (Some p) s'
      ∧ load Int p s' = Some 42%Z
      ∧ any_cast_ptr double (Some 1%positive) s' = Ret None s'.
Proof.
  split; [reflexivity|].
  destruct (any_cast_ptr_roundtrip 1%positive int 42%Z s_init eq_refl)
    as (s' & p & Hctor & Hptr & Hload & Hother).
  exists s', p. split_and!; [exact Hctor|exact Hptr|exact Hload|].
  apply Hother. discriminate.
Defined.

Lemma assignment_strong_guarantee_witness :
  owns s_four 1%positive 10%positive
  ∧ heap s_four !! 10%positive = Some (holder Int 42%Z)
  ∧ assign_copy 1%positive 3%positive s_four
    = Throw (thrown "copy failed"%string) s_four
  ∧ assign_value 1%positive fragile_ref true s_four
    = Throw (thrown "copy failed"%string) s_four
  ∧ type 1%positive s_four = Ret (typeid_of Int) s_four.
Proof.
  split; [reflexivity|]. split; [reflexivity|].
  pose proof (assignment_strong_guarantee 1%positive 10%positive Int 42%Z
                s_four eq_refl eq_refl) as Hthm.
  cbv zeta in Hthm. destruct Hthm as [Hcopy Hvalue].
  destruct (Hcopy 3%positive 30%positive Fragile true "copy failed"%string
              eq_refl eq_refl eq_refl) as (s1 & Hr1 & Hs1 & Hty & _).
  destruct (Hvalue fragile_ref true "copy failed"%string
              eq_refl) as (s2 & Hr2 & Hs2 & _).
  subst s1 s2. split_and!; [exact Hr1|exact Hr2|exact Hty].
Defined.

Lemma copy_construction_is_deep_witness :
  5%positive ≠ 2%positive
  ∧ ∃ s' l',
      any_copy 5%positive 2%positive s_four = Ret () s'
      ∧ l' ≠ 20%positive
      ∧ load String l' s' = Some hello
      ∧ ∃ s'',
          store_value String l' "changed"%string s' = Ret () s''
          ∧ load String l' s'' = Some "changed"%string
          ∧ load String 20%positive s'' = Some hello.
Proof.
  split; [discriminate|].
  destruct (copy_construction_is_deep 5%positive 2%positive s_four)
    as [Hheld _]; [discriminate|].
  destruct (Hheld 20%positive String hello eq_refl eq_refl eq_refl)
    as (s' & l' & Hcopy & _ & _ & Hne & _ & _ & Hload & _ & Hwrite).
  destruct (Hwrite "changed"%string) as (s'' & Hst & _ & Hnew & _ & Hold).
  exists s', l'. split_and!; [exact Hcopy|exact Hne|exact Hload|].
  exists s''. split_and!; [exact Hst|exact Hnew|exact Hold].
Defined.

Lemma move_empties_source_witness :
  rep_inv s_four
  ∧ 1%positive ≠ 2%positive
  ∧ objs s_four !! 1%positive = Some (Any (Some 10%positive))
  ∧ ∃ s',
      assign_move 2%positive 1%positive s_four = Ret () s'
      ∧ has_value 1%positive s' = Ret false s'
      ∧ type 2%positive s' = Ret (typeid_of Int) s'
      ∧ any_cast_ptr int (Some 2%positive) s' = Ret (Some 10%positive) s'
      ∧ load Int 10%positive s' = Some 42%Z.
Proof.
  split; [exact s_four_rep_inv|]. split; [discriminate|].
  split; [reflexivity|].
  pose proof (move_empties_source 1%positive 2%positive _ s_four
                s_four_rep_inv ltac:(discriminate) eq_refl) as Hthm.
  cbv zeta in Hthm. destruct Hthm as (Hassign & _ & _ & _).
  destruct Hassign as (s' & Hrun & _ & Hempty & Hty & Hptr);
    [by eexists|].
  destruct (Hptr int 10%positive eq_refl) as [Hp Hload].
  exists s'. split_and!;
    [exact Hrun|exact Hempty|exact (Hty _ eq_refl)|exact Hp|].
  rewrite Hload. reflexivity.
Defined.

Lemma swap_exchanges_and_restores_witness :
  objs s_four !! 1%positive = Some (Any (Some 10%positive))
  ∧ objs s_four !! 2%positive = Some (Any (Some 20%positive))
  ∧ ∃ s',
      swap 1%positive 2%positive s_four = Ret () s'
      ∧ type 1%positive s' = Ret (typeid_of String) s'
      ∧ swap 2%positive 1%positive s' = Ret () s_four.
Proof.
  split; [reflexivity|]. split; [reflexivity|].
  destruct (swap_exchanges_and_restores 1%positive 2%positive _ _ s_four
              eq_refl eq_refl)
    as [(s' & Hswap & Ha & _ & _ & Hheap & Hback) _].
  exists s'. split_and!; [exact Hswap| |exact Hback].
  rewrite type_eq, Ha, Hheap. reflexivity.
Defined.

Lemma rvalue_cast_keeps_holder_witness :
  owns s_four 2%positive 20%positive
  ∧ heap s_four !! 20%positive = Some (holder String hello)
  ∧ ∃ s',
      any_cast from_rvalue std_string 2%positive s_four
      = Ret (by_value (hello : value (ty_base std_string))) s'
      ∧ load String 20%positive s' = Some EmptyString
      ∧ has_value 2%positive s' = Ret true s'
      ∧ type 2%positive s' = Ret (typeid_of String) s'.
Proof.
  split; [reflexivity|]. split; [reflexivity|].
  destruct (rvalue_cast_keeps_holder 2%positive 20%positive std_string hello
              s_four eq_refl eq_refl)
    as (s' & Hcast & _ & Hhas & _ & Hty).
  simpl in Hcast. destruct Hcast as [Hcast Hload].
  exists s'. split_and!; [exact Hcast|exact Hload|exact Hhas|exact Hty].
Defined.

Lemma operations_preserve_rep_inv_witness :
  rep_inv s_four
  ∧ live_operands (op_assign_value 1%positive std_string hello) s_four
  ∧ ∃ s',
      assign_value 1%positive std_string hello s_four = Ret () s'
      ∧ rep_inv s'
      ∧ type 1%positive s' = Ret (typeid_of String) s'.
Proof.
  assert (live_operands (op_assign_value 1%positive std_string hello) s_four)
    as Hlive.
  { unfold live_operands. simpl. constructor; [by eexists|constructor]. }
  split; [exact s_four_rep_inv|]. split; [exact Hlive|].
  destruct (operations_preserve_rep_inv _ s_four s_four_rep_inv Hlive)
    as (s' & Hout & Hinv & _ & _ & Hstores).
  assert (assign_value 1%positive std_string hello s_four = Ret () s')
    as Hrun.
  { destruct Hout as [Hret|[e Hthrow]]; [exact Hret|].
    exfalso. vm_compute in Hthrow. discriminate Hthrow. }
  exists s'. split_and!; [exact Hrun|exact Hinv|].
  exact (Hstores 1%positive std_string eq_refl Hrun).
Defined.

Lemma self_move_assignment_keeps_value_witness :
  objs s_four !! 1%positive = Some (Any (Some 10%positive))
  ∧ assign_move 1%positive 1%positive s_four = Ret () s_four
  ∧ any_cast_ptr int (Some 1%positive) s_four = Ret (Some 10%positive) s_four.
Proof.
  split; [reflexivity|].
  destruct (self_move_assignment_keeps_value 1%positive _ s_four eq_refl)
    as [Hself _].
  split; [exact Hself|reflexivity].
Defined.

(** ** The further properties at work *)

Lemma s_four_no_leak : no_leak s_four.
Proof.
  intros l [h Hl]. unfold owns, s_four in *. simpl in *.
  split_lookups;
    [exists 1%positive|exists 2%positive|exists 3%positive]; reflexivity.
Qed.

Lemma cfg_two_inv : cfg_inv cfg_two s_four.
Proof.
  split.
  - intros k a Hk. unfold cfg_two in Hk. simpl in Hk.
    split_lookups; by eexists.
  - intros k1 k2 a Hk1 Hk2. unfold cfg_two in *. simpl in *.
    split_lookups; done.
Qed.

Lemma pc_three_inv : pc_inv pc_three s_four.
Proof.
  split.
  - unfold pc_three. simpl. apply (bool_decide_unpack _). by vm_compute.
  - unfold pc_three. simpl. repeat constructor; by eexists.
Qed.

Lemma reset_releases_witness :
  rep_inv s_four
  ∧ objs s_four !! 1%positive = Some (Any (Some 10%positive))
  ∧ ∃ s', reset 1%positive s_four = Ret () s'
          ∧ has_value 1%positive s' = Ret false s'
          ∧ heap s' !! 10%positive = None
          ∧ reset 1%positive s' = Ret () s'.
Proof.
  split; [exact s_four_rep_inv|]. split; [reflexivity|].
  destruct (reset_releases 1%positive _ s_four s_four_rep_inv eq_refl)
    as [(s' & Hrun & Hempty & _ & Hfreed & _ & _ & Hagain) _].
  exists s'. split_and!; [exact Hrun|exact Hempty| |exact Hagain].
  exact (Hfreed 10%positive eq_refl).
Defined.

Lemma copy_assignment_replaces_witness :
  rep_inv s_four
  ∧ objs s_four !! 2%positive = Some (Any (Some 20%positive))
  ∧ ∃ s' l',
      assign_copy 2%positive 2%positive s_four = Ret () s'
      ∧ owns s' 2%positive l'
      ∧ load String l' s' = Some hello
      ∧ heap s' !! 20%positive = None.
Proof.
  split; [exact s_four_rep_inv|]. split; [reflexivity|].
  destruct (copy_assignment_replaces 2%positive 2%positive _ s_four
              s_four_rep_inv eq_refl) as [Hheld _].
  destruct (Hheld 20%positive String hello eq_refl eq_refl eq_refl)
    as (s' & l' & Hrun & Hown & _ & _ & Hload & _ & Hself & _).
  exists s', l'. split_and!; [exact Hrun|exact Hown|exact Hload|].
  exact (Hself eq_refl).
Defined.


Lemma destructor_releases_witness :
  rep_inv s_four
  ∧ objs s_four !! 2%positive = Some (Any (Some 20%positive))
  ∧ ∃ s', any_dtor 2%positive s_four = Ret () s'
          ∧ objs s' !! 2%positive = None
          ∧ heap s' !! 20%positive = None.
Proof.
  split; [exact s_four_rep_inv|]. split; [reflexivity|].
  destruct (destructor_releases 2%positive _ s_four s_four_rep_inv eq_refl)
    as (s' & Hrun & Hgone & Hfreed & _).
  exists s'. split_and!; [exact Hrun|exact Hgone|].
  exact (Hfreed 20%positive eq_refl).
Defined.

Lemma copy_then_destroy_restores_witness :
  rep_inv s_four
  ∧ objs s_four !! 2%positive = Some (Any (Some 20%positive))
  ∧ objs s_four !! 5%positive = None
  ∧ ((any_copy 5%positive 2%positive;; any_dtor 5%positive) s_four
     = Ret () s_four
     ∨ ∃ l t v e,
         owns s_four 2%positive l ∧ heap s_four !! l = Some (holder t v)
         ∧ copy_throws t v = Some e
         ∧ (any_copy 5%positive 2%positive;; any_dtor 5%positive) s_four
           = Throw (thrown e) s_four).
Proof.
  split; [exact s_four_rep_inv|]. split; [reflexivity|].
  split; [reflexivity|].
  exact (copy_then_destroy_restores 5%positive 2%positive _ s_four
           s_four_rep_inv eq_refl eq_refl).
Defined.

Lemma lvalue_cast_reads_witness :
  from_lvalue ≠ from_rvalue
  ∧ any_cast from_lvalue int 1%positive s_four
    = Ret (by_value (42%Z : value (ty_base int))) s_four.
Proof.
  split; [discriminate|].
  destruct (lvalue_cast_reads from_lvalue int 1%positive s_four)
    as (_ & _ & Hheld); [discriminate|].
  exact (Hheld 10%positive 42%Z eq_refl eq_refl).
Defined.


Lemma operations_do_not_leak_witness :
  rep_inv s_four ∧ no_leak s_four
  ∧ live_operands (op_copy 5%positive 2%positive) s_four
  ∧ fresh_storage (op_copy 5%positive 2%positive) s_four
  ∧ ∃ s', (any_copy 5%positive 2%positive s_four = Ret () s'
           ∨ ∃ e, any_copy 5%positive 2%positive s_four = Throw e s')
          ∧ no_leak s'.
Proof.
  assert (live_operands (op_copy 5%positive 2%positive) s_four) as Hlive.
  { unfold live_operands. simpl. constructor; [by eexists|constructor]. }
  assert (fresh_storage (op_copy 5%positive 2%positive) s_four) as Hfresh.
  { intros this [= <-]. reflexivity. }
  split; [exact s_four_rep_inv|]. split; [exact s_four_no_leak|].
  split; [exact Hlive|]. split; [exact Hfresh|].
  exact (operations_do_not_leak (op_copy 5%positive 2%positive) s_four
           s_four_rep_inv s_four_no_leak Hlive Hfresh).
Defined.

Lemma config_set_then_get_witness :
  rep_inv s_four ∧ cfg_inv cfg_two s_four
  ∧ storing_throws int 30%Z = None
  ∧ ∃ c' s',
      ConfigManager_set int "timeout" 30%Z cfg_two s_four = (c', Ret () s')
      ∧ ConfigManager_get int "timeout" c' s'
        = completed (Ret (by_value (30%Z : value (ty_base int))) s').
Proof.
  split; [exact s_four_rep_inv|]. split; [exact cfg_two_inv|].
  split; [reflexivity|].
  destruct (config_set_then_get int "timeout" 30%Z cfg_two s_four
              s_four_rep_inv cfg_two_inv eq_refl)
    as (c' & s' & l & Hset & _ & _ & _ & Hget).
  exists c', s'. split; [exact Hset|].
  exact (proj1 (Hget false false NoRef)).
Defined.


Lemma get_or_default_covers_get_witness :
  rep_inv s_four ∧ cfg_inv cfg_two s_four
  ∧ ConfigManager_get int "app_name" cfg_two s_four
    = completed (Throw bad_any_cast s_four)
  ∧ ConfigManager_get_or_default int "app_name" 30%Z cfg_two s_four
    = Ret (from_default (30%Z : value (ty_base int))) s_four.
Proof.
  split; [exact s_four_rep_inv|]. split; [exact cfg_two_inv|].
  split; [reflexivity|].
  destruct (get_or_default_covers_get int "app_name" 30%Z cfg_two s_four
              s_four_rep_inv cfg_two_inv) as (Hcover & _ & _).
  exact Hcover.
Defined.

Lemma config_set_failure_witness :
  rep_inv s_four ∧ cfg_inv cfg_two s_four
  ∧ storing_throws fragile_ref true = Some "copy failed"%string
  ∧ ∃ c' s' a,
      ConfigManager_set fragile_ref "fragile" true cfg_two s_four
      = (c', Throw (thrown "copy failed"%string) s')
      ∧ config c' !! "fragile"%string = Some a
      ∧ ConfigManager_get fragile "fragile" c' s'
        = completed (Throw bad_any_cast s').
Proof.
  split; [exact s_four_rep_inv|]. split; [exact cfg_two_inv|].
  split; [reflexivity|].
  destruct (config_set_failure fragile_ref "fragile" true "copy failed"%string
              cfg_two s_four s_four_rep_inv cfg_two_inv eq_refl)
    as [_ Hnew].
  destruct (Hnew eq_refl)
    as (c' & s' & a & Hset & Hkey & _ & _ & _ & _ & _ & Hget & _).
  exists c', s', a. split_and!; [exact Hset|exact Hkey|exact (Hget fragile)].
Defined.

Lemma container_add_appends_witness :
  rep_inv s_four ∧ pc_inv pc_three s_four
  ∧ objs s_four !! 2%positive = Some (Any (Some 20%positive))
  ∧ ∃ c' s',
      PolymorphicContainer_add true 2%positive pc_three s_four = Ret c' s'
      ∧ PolymorphicContainer_size c' = 4
      ∧ PolymorphicContainer_get int 0 c' s' = Ret (Some 10%positive) s'
      ∧ ∃ p', PolymorphicContainer_get std_string 3 c' s' = Ret (Some p') s'
              ∧ load String p' s' = Some hello.
Proof.
  split; [exact s_four_rep_inv|]. split; [exact pc_three_inv|].
  split; [reflexivity|].
  destruct (container_add_appends true 2%positive _ pc_three s_four
              s_four_rep_inv pc_three_inv eq_refl)
    as (c' & s' & Hadd & _ & _ & Hsize & Hold & Hnew).
  { intros l t v [= <-] Hl.
    destruct t; first [reflexivity|discriminate Hl]. }
  destruct (Hold int 0 (Some 10%positive)) as [Hget0 _];
    [vm_compute; lia|reflexivity|].
  destruct (Hnew std_string (Some 20%positive) eq_refl)
    as (p' & Hget3 & _ & Hload).
  exists c', s'. split_and!; [exact Hadd|exact Hsize|exact Hget0|].
  exists p'. split; [exact Hget3|]. rewrite Hload. reflexivity.
Defined.

Lemma container_add_failure_witness :
  owns s_four 3%positive 30%positive
  ∧ heap s_four !! 30%positive = Some (holder Fragile true)
  ∧ PolymorphicContainer_add true 3%positive pc_three s_four
    = Throw (thrown "copy failed"%string) s_four.
Proof.
  split; [reflexivity|]. split; [reflexivity|].
  exact (container_add_failure true 3%positive 30%positive Fragile true
           "copy failed"%string pc_three s_four eq_refl eq_refl eq_refl).
Defined.

Example run_config_manager :
  match scenario_config with
  | (c2, Ret _ s2) =>
      ConfigManager_get std_string "app_name" c2 s2
      = completed (Ret (by_value (hello : value (ty_base std_string))) s2)
      ∧ ConfigManager_get int "max_connections" c2 s2
        = completed (Ret (by_value (100%Z : value (ty_base int))) s2)
      ∧ ConfigManager_get int "timeout" c2 s2
        = runtime_error "Key not found: timeout" s2
      ∧ ConfigManager_get_or_default int "timeout" 30%Z c2 s2
        = Ret (from_default (30%Z : value (ty_base int))) s2
  | _ => False
  end.
Proof. vm_compute. by split_and!. Qed.

Example run_polymorphic_container :
  match scenario_container s_four with
  | Ret c2 s2 =>
      PolymorphicContainer_size c2 = 2
      ∧ (p ← PolymorphicContainer_get int 0 c2;
         match p with Some l => load_value Int l | None => undef end) s2
        = Ret 42%Z s2
      ∧ PolymorphicContainer_get double 0 c2 s2 = Ret None s2
      ∧ PolymorphicContainer_get int 2 c2 s2 = Ret None s2
  | _ => False
  end.
Proof. vm_compute. by split_and!. Qed.

End runs.
